(** * A two-level order book: symbol -> price -> aggregated lot size

    Shallow embedding of [src/Source.cpp]: the [Order] cell with its
    atomic [lotSize], and [ConcurrentHashMap] with [insert], [remove] and
    [display], instantiated as in [main] at [K = std::string], [V = int].

    The two [std::unordered_map] levels are finite maps with unique keys
    ([gmap]); [int] is a 32-bit two's complement integer, carried as a [Z]
    with the wrap-around of [std::atomic<int>::fetch_add] written out.

    Threads are program counters into the bodies of the calls, moved one
    step at a time by a scheduler: [Threads] has the inserting threads of
    [testConcurrentAccess], [Workers] has threads that call [insert],
    [remove] and [display] under the shared mutex.  [SelfTest] has
    [testInsert], [testRemove] and the checks of [testConcurrentAccess],
    with [assert] and [at] as the two ways a test can stop early. *)

From Stdlib Require Import ZArith Lia.
From stdpp Require Import gmap strings list fin_maps.

Local Open Scope Z_scope.

(** ** The quantity type [int] *)

Definition INT_MIN : Z := -2147483648.
Definition INT_MAX : Z := 2147483647.

(** [z] is a value of type [int]. *)
Definition is_int (z : Z) : Prop := INT_MIN <= z <= INT_MAX.

(** Reduction of a mathematical integer to the [int] that represents it
    modulo [2^32]: the result of signed atomic arithmetic, which is
    defined to wrap. *)
Definition wrap_int (z : Z) : Z := (z + 2147483648) mod 4294967296 - 2147483648.

(** ** [struct Order] *)

Record Order : Type := mkOrder { lotSize : Z; price : Z }.

(** [Order() : lotSize(0), price(0)] *)
Definition Order_default : Order := mkOrder 0 0.

(** [Order& operator=(Order&& other)]: both fields are taken from
    [other].  The source and the target are distinct objects at the one
    call site, so the guard [this != &other] is passed. *)
Definition move_assign (this other : Order) : Order :=
  {| lotSize := lotSize other; price := price other |}.

(** [lotSize.fetch_add(delta, std::memory_order_relaxed)] on a cell. *)
Definition fetch_add (cell : Order) (delta : Z) : Order :=
  {| lotSize := wrap_int (lotSize cell + delta); price := price cell |}.

(** [well_typed o]: the lot size of [o] is an [int]. *)
Definition well_typed (o : Order) : Prop := is_int (lotSize o).

(** ** [class ConcurrentHashMap] *)

Module ConcurrentHashMap.

(** [map_]: symbol -> (price -> Order). *)
Abbreviation book := (gmap string (gmap Z Order)).

(** [m[k]] of [std::unordered_map]: a missing key is first bound to a
    value-initialised element. *)
Definition subscript `{Countable K} {V : Type} (dflt : V) (k : K)
    (m : gmap K V) : gmap K V :=
  match m !! k with
  | Some _ => m
  | None => <[k := dflt]> m
  end.

(** The element [m[k]] refers to, once [subscript] has run. *)
Definition at_key `{Countable K} {V : Type} (dflt : V) (k : K)
    (m : gmap K V) : V :=
  default dflt (m !! k).

(** The body of [insert] between taking and releasing the lock, in its
    two structural steps.  [index_symbol] is [auto& orders = map_[symbol]]. *)
Definition index_symbol (symbol : string) (map_ : book) : book :=
  subscript ∅ symbol map_.

(** [find] on the inner map, then either [fetch_add] into the cell found
    or [orders[order.price] = std::move(order)]. *)
Definition merge_order (order : Order) (orders : gmap Z Order) : gmap Z Order :=
  match orders !! price order with
  | Some cell => <[price order := fetch_add cell (lotSize order)]> orders
  | None =>
      let orders' := subscript Order_default (price order) orders in
      <[price order := move_assign (at_key Order_default (price order) orders') order]> orders'
  end.

Definition update_symbol (symbol : string) (order : Order) (map_ : book) : book :=
  <[symbol := merge_order order (at_key ∅ symbol map_)]> map_.

Definition insert (symbol : string) (order : Order) (map_ : book) : book :=
  update_symbol symbol order (index_symbol symbol map_).

(** [map_.erase(symbol)] *)
Definition remove (symbol : string) (map_ : book) : book :=
  delete symbol map_.

(** [display]: one line per symbol, each listing the [(lotSize, price)]
    of every cell, in the iteration order of the two maps. *)
Definition display_line (orders : gmap Z Order) : list (Z * Z) :=
  (λ kv, (lotSize kv.2, kv.1)) <$> map_to_list orders.

Definition display (map_ : book) : list (string * list (Z * Z)) :=
  (λ kv, (kv.1, display_line kv.2)) <$> map_to_list map_.

(** The calls a client can make that change the book. *)
Inductive op : Type :=
| Insert (symbol : string) (order : Order)
| Remove (symbol : string).

Definition exec (o : op) (map_ : book) : book :=
  match o with
  | Insert symbol order => insert symbol order map_
  | Remove symbol => remove symbol map_
  end.

(** A sequence of calls, the first of the list first. *)
Definition run (ops : list op) (map_ : book) : book :=
  foldl (λ b o, exec o b) map_ ops.

(** The cell stored for [(symbol, p)], if any. *)
Definition cell (map_ : book) (symbol : string) (p : Z) : option Order :=
  map_ !! symbol ≫= λ orders, orders !! p.

(** The symbols and, within a line, the prices that [display] prints. *)
Definition symbols (map_ : book) : list string := (display map_).*1.
Definition prices (line : list (Z * Z)) : list Z := line.*2.

(** The cell a merge leaves at the order's own price, given the cell
    [find] returned. *)
Definition merged (old : option Order) (o : Order) : Order :=
  match old with
  | Some c => fetch_add c (lotSize o)
  | None => o
  end.

(** [targets symbol p o]: the call [o] is an insert at [(symbol, p)]. *)
Definition targets (symbol : string) (p : Z) (o : op) : bool :=
  match o with
  | Insert s' order => bool_decide (s' = symbol) && bool_decide (price order = p)
  | Remove _ => false
  end.

(** The exact sum of the quantities inserted at [(symbol, p)]. *)
Fixpoint sum_at (symbol : string) (p : Z) (ops : list op) : Z :=
  match ops with
  | [] => 0
  | Insert s' order :: ops' =>
      (if targets symbol p (Insert s' order) then lotSize order else 0)
      + sum_at symbol p ops'
  | Remove _ :: ops' => sum_at symbol p ops'
  end.

(** No symbol is bound to an empty inner map. *)
Definition no_placeholder (map_ : book) : Prop :=
  ∀ s orders, map_ !! s = Some orders → orders ≠ ∅.

(** Every cell records the price it is stored under. *)
Definition keyed (map_ : book) : Prop :=
  ∀ s p c, cell map_ s p = Some c → price c = p.

(** Every stored quantity is an [int]. *)
Definition typed_book (map_ : book) : Prop :=
  ∀ s p c, cell map_ s p = Some c → is_int (lotSize c).

(** The quantities the calls carry are [int]s. *)
Definition well_typed_op (o : op) : Prop :=
  match o with
  | Insert _ order => well_typed order
  | Remove _ => True
  end.

End ConcurrentHashMap.

(** ** Threads that call [insert]

    Every call of [insert] runs its whole body under the exclusive lock
    [mutex_].  A thread is a program counter into that body together with
    the arguments of its call; a scheduler picks, at each step, the thread
    that moves next.  A thread that waits for the lock cannot be picked
    while the lock is held. *)

Module Threads.

Import ConcurrentHashMap.

(** Where a thread stands in the body of [insert]. *)
Inductive pc : Type :=
| AtLock    (* about to construct the unique_lock on mutex_ *)
| AtIndex   (* lock held; about to run  auto& orders = map_[symbol]  *)
| AtMerge   (* lock held; about to find the price and merge or create *)
| AtUnlock  (* lock held; about to leave the scope of the lock *)
| Finished. (* returned from insert *)

Record thread : Type :=
  mkThread { t_pc : pc; t_symbol : string; t_order : Order }.

Record state : Type :=
  mkState { map_ : book; mutex_ : bool; threads : list thread }.

Definition at_pc (l : pc) (t : thread) : thread :=
  {| t_pc := l; t_symbol := t_symbol t; t_order := t_order t |}.

(** One step of thread [i]; [None] when there is no such thread, when it
    has returned, or when it is blocked on the lock. *)
Definition step_thread (i : nat) (st : state) : option state :=
  match threads st !! i with
  | None => None
  | Some t =>
      match t_pc t with
      | AtLock =>
          if mutex_ st then None
          else Some {| map_ := map_ st; mutex_ := true;
                       threads := <[i := at_pc AtIndex t]> (threads st) |}
      | AtIndex =>
          Some {| map_ := index_symbol (t_symbol t) (map_ st);
                  mutex_ := mutex_ st;
                  threads := <[i := at_pc AtMerge t]> (threads st) |}
      | AtMerge =>
          Some {| map_ := update_symbol (t_symbol t) (t_order t) (map_ st);
                  mutex_ := mutex_ st;
                  threads := <[i := at_pc AtUnlock t]> (threads st) |}
      | AtUnlock =>
          Some {| map_ := map_ st; mutex_ := false;
                  threads := <[i := at_pc Finished t]> (threads st) |}
      | Finished => None
      end
  end.

(** An interleaving is the list of the threads picked, in order. *)
Fixpoint run_schedule (sched : list nat) (st : state) : option state :=
  match sched with
  | [] => Some st
  | i :: sched' =>
      match step_thread i st with
      | Some st' => run_schedule sched' st'
      | None => None
      end
  end.

Definition finished (t : thread) : bool :=
  match t_pc t with Finished => true | _ => false end.

(** Every thread has returned: all the [join]s succeed. *)
Definition all_joined (st : state) : bool := forallb finished (threads st).

(** The symbol and the price level [testConcurrentAccess] works on. *)
Definition symbol : string := "CONCURRENCY_TEST".
Definition level : Z := 2.

(** The threads of [testConcurrentAccess]: thread [i] calls
    [insert(symbol, Order(i + 1, 2))]. *)
Definition spawn (numThreads : nat) : list thread :=
  (λ i : nat, {| t_pc := AtLock; t_symbol := symbol;
                 t_order := mkOrder (Z.of_nat i + 1) level |})
    <$> seq 0 numThreads.

Definition testConcurrentAccess (numThreads : nat) (map0 : book) : state :=
  {| map_ := map0; mutex_ := false; threads := spawn numThreads |}.

(** The same threads at any pair: thread [i] calls
    [insert(s, Order(i + 1, p))]. *)
Definition spawn_at (s : string) (p : Z) (numThreads : nat) : list thread :=
  (λ i : nat, {| t_pc := AtLock; t_symbol := s;
                 t_order := mkOrder (Z.of_nat i + 1) p |})
    <$> seq 0 numThreads.

Definition concurrent_inserts (s : string) (p : Z) (numThreads : nat)
    (map0 : book) : state :=
  {| map_ := map0; mutex_ := false; threads := spawn_at s p numThreads |}.

(** [N * (N + 1) / 2], the sum of [1 .. N]. *)
Definition triangular (N : Z) : Z := N * (N + 1) / 2.

(** Sum of a per-thread quantity over all threads. *)
Definition tsum (f : thread → Z) (ts : list thread) : Z :=
  foldr (λ t acc, f t + acc) 0 ts.

(** Indicators of the program points, and the quantity a thread has
    already merged into the book. *)
Definition holding (t : thread) : Z :=
  match t_pc t with AtIndex | AtMerge | AtUnlock => 1 | _ => 0 end.
Definition indexing (t : thread) : Z :=
  match t_pc t with AtIndex => 1 | _ => 0 end.
Definition merging (t : thread) : Z :=
  match t_pc t with AtMerge => 1 | _ => 0 end.
Definition applied (t : thread) : Z :=
  match t_pc t with AtUnlock | Finished => 1 | _ => 0 end.
Definition applied_qty (t : thread) : Z :=
  match t_pc t with AtUnlock | Finished => lotSize (t_order t) | _ => 0 end.
Definition quantity (t : thread) : Z := lotSize (t_order t).

(** Steps a thread still has to take. *)
Definition remaining (t : thread) : Z :=
  match t_pc t with
  | AtLock => 4 | AtIndex => 3 | AtMerge => 2 | AtUnlock => 1 | Finished => 0
  end.

(** The book while [n] threads have merged a total of [total] at
    [(s, p)] and [m] threads stand between indexing and merging. *)
Definition shape (map0 : book) (s : string) (p : Z) (n m total : Z) : book :=
  if n =? 0 then (if m =? 0 then map0 else <[s := ∅]> map0)
  else <[s := {[p := mkOrder (wrap_int total) p]}]> map0.

(** What holds of every state the threads can reach, when all of them
    insert at [(s, p)] into a book [map0] that lacks [s]. *)
Record invariant (map0 : book) (s : string) (p : Z) (total : Z) (n : nat)
    (st : state) : Prop := {
  inv_mutex : tsum holding (threads st) = Z.b2z (mutex_ st);
  inv_book : map_ st = shape map0 s p (tsum applied (threads st))
               (tsum merging (threads st)) (tsum applied_qty (threads st));
  inv_calls : Forall (λ t, t_symbol t = s ∧ price (t_order t) = p
                           ∧ well_typed (t_order t)) (threads st);
  inv_total : tsum quantity (threads st) = total;
  inv_count : length (threads st) = n
}.

End Threads.

Import ConcurrentHashMap.

(** ** The self-tests of [ConcurrentHashMap]

    [assert] aborts the program when its condition is false, and
    [unordered_map::at] throws [std::out_of_range] on a missing key: a
    test either runs to its [return true], with the book it leaves, or
    stops in one of these two ways. *)

Module SelfTest.

Inductive outcome (A : Type) : Type :=
| Passed (a : A)
| AssertionFailed
| OutOfRange.

Arguments Passed {A} a.
Arguments AssertionFailed {A}.
Arguments OutOfRange {A}.

Global Instance outcome_ret : MRet outcome := λ A a, Passed a.

Global Instance outcome_bind : MBind outcome := λ A B k m,
  match m with
  | Passed a => k a
  | AssertionFailed => AssertionFailed
  | OutOfRange => OutOfRange
  end.

(** [assert(c)] *)
Definition assert (c : bool) : outcome unit :=
  if c then Passed tt else AssertionFailed.

(** [m.at(k)] *)
Definition at_ `{Countable K} {V : Type} (m : gmap K V) (k : K) : outcome V :=
  match m !! k with
  | Some v => Passed v
  | None => OutOfRange
  end.

(** [testInsert], run on the book [map0]. *)
Definition testInsert (map0 : book) : outcome book :=
  let map1 := insert "TEST" (mkOrder 10 2) map0 in
  orders ← at_ map1 "TEST";
  _ ← assert (bool_decide (size orders = 1%nat));
  c ← at_ orders 2;
  _ ← assert (bool_decide (lotSize c = 10));
  let map2 := insert "TEST" (mkOrder 20 2) map1 in
  orders ← at_ map2 "TEST";
  _ ← assert (bool_decide (size orders = 1%nat));
  c ← at_ orders 2;
  _ ← assert (bool_decide (lotSize c = 30));
  let map3 := insert "TEST" (mkOrder 5 3) map2 in
  orders ← at_ map3 "TEST";
  _ ← assert (bool_decide (size orders = 2%nat));
  c ← at_ orders 2;
  _ ← assert (bool_decide (lotSize c = 30));
  c ← at_ orders 3;
  _ ← assert (bool_decide (lotSize c = 5));
  mret map3.

(** The book [testInsert] leaves when it passes, given the price [p2]
    recorded in the cell under price 2. *)
Definition after_testInsert (p2 : Z) (b : book) : book :=
  <["TEST" := <[3 := mkOrder 5 3]> {[2 := mkOrder 30 p2]}]> b.

(** The books on which [testInsert] can pass: "TEST" has no cell, or only
    a cell under price 2 to which 10 can be added to give 10. *)
Definition ready_for_testInsert (b : book) : Prop :=
  b !! "TEST" = None ∨ b !! "TEST" = Some ∅
  ∨ ∃ c, b !! "TEST" = Some {[2 := c]} ∧ wrap_int (lotSize c + 10) = 10.

(** [testRemove], run on the book [map0]. *)
Definition testRemove (map0 : book) : outcome book :=
  let map1 := insert "TEST" (mkOrder 10 2) map0 in
  let map2 := remove "TEST" map1 in
  _ ← assert (bool_decide (map2 !! "TEST" = None));
  mret map2.

(** The checks of [testConcurrentAccess] on the book [map1] that the
    joined threads have left.  The expected quantity is computed in
    [int]; it is [numThreads * (numThreads + 1) / 2] as long as the
    product is an [int]. *)
Definition check_joined (numThreads : nat) (map1 : book) : outcome unit :=
  orders ← at_ map1 Threads.symbol;
  _ ← assert (bool_decide (size orders = 1%nat));
  c ← at_ orders 2;
  assert (bool_decide (lotSize c = Threads.triangular (Z.of_nat numThreads))).

End SelfTest.

(** ** Any threads that call [insert]

    The threads of [testConcurrentAccess] all insert at one pair.  The
    definitions below are for threads that insert anywhere. *)

(** The call a thread makes. *)
Definition call_of (t : Threads.thread) : op :=
  Insert (Threads.t_symbol t) (Threads.t_order t).

(** The thread has merged its order into the book. *)
Definition has_merged (t : Threads.thread) : bool :=
  match Threads.t_pc t with
  | Threads.AtUnlock | Threads.Finished => true
  | _ => false
  end.

(** The calls already merged into the book, in the order of the threads. *)
Definition merged_calls (ts : list Threads.thread) : list op :=
  omap (λ t, if has_merged t then Some (call_of t) else None) ts.

(** One thread per call, each about to take the lock, on the book [map0]. *)
Definition launch (calls : list (string * Order)) (map0 : book) : Threads.state :=
  {| Threads.map_ := map0; Threads.mutex_ := false;
     Threads.threads :=
       (λ c, {| Threads.t_pc := Threads.AtLock; Threads.t_symbol := c.1;
                Threads.t_order := c.2 |}) <$> calls |}.

(** The calls of the threads of [testConcurrentAccess]. *)
Definition test_calls (numThreads : nat) : list (string * Order) :=
  (λ i : nat, (Threads.symbol, mkOrder (Z.of_nat i + 1) Threads.level))
    <$> seq 0 numThreads.

(** The calls as a sequence, in the order of the list. *)
Definition in_sequence (calls : list (string * Order)) : list op :=
  (λ c, Insert c.1 c.2) <$> calls.

(** What holds of every state that threads launched on [map0] can reach. *)
Record serial_invariant (map0 : book) (calls : list op)
    (st : Threads.state) : Prop := {
  ser_mutex :
    Threads.tsum Threads.holding (Threads.threads st)
    = Z.b2z (Threads.mutex_ st);
  ser_idle :
    Threads.tsum Threads.merging (Threads.threads st) = 0 →
    Threads.map_ st = run (merged_calls (Threads.threads st)) map0;
  ser_merging :
    ∀ i t, Threads.threads st !! i = Some t →
           Threads.t_pc t = Threads.AtMerge →
           Threads.map_ st
           = index_symbol (Threads.t_symbol t)
               (run (merged_calls (Threads.threads st)) map0);
  ser_calls : call_of <$> Threads.threads st = calls
}.

(** ** Threads that call [insert], [remove] and [display]

    [insert] and [remove] hold [mutex_] exclusively for their whole body,
    [display] holds it shared.  A [std::shared_mutex] is free for an
    exclusive lock when nobody holds it, and for a shared lock when it is
    not held exclusively.  [display] prints one line per step of its outer
    loop, each read from the book as it is at that step. *)

Module Workers.

Inductive call : Type :=
| CallInsert (symbol : string) (order : Order)
| CallRemove (symbol : string)
| CallDisplay.

(** Where a worker stands in the body of its call. *)
Inductive pc : Type :=
| Waiting               (* about to construct its lock on mutex_ *)
| Indexing              (* insert, lock held: about to run map_[symbol] *)
| Merging               (* insert, lock held: about to find and merge *)
| Erasing               (* remove, lock held: about to run map_.erase *)
| Printing (k : nat)    (* display, shared lock held: k lines printed *)
| Leaving               (* about to leave the scope of its lock *)
| Returned.

Record shared_mutex : Type :=
  mkMutex { exclusive : bool; shared : nat }.

Record worker : Type :=
  mkWorker { w_pc : pc; w_call : call; w_out : list (string * list (Z * Z)) }.

Record state : Type :=
  mkState { map_ : book; mutex_ : shared_mutex; workers : list worker }.

Definition at_pc (l : pc) (w : worker) : worker :=
  {| w_pc := l; w_call := w_call w; w_out := w_out w |}.

(** Nobody holds the mutex. *)
Definition free (m : shared_mutex) : bool :=
  negb (exclusive m) && bool_decide (shared m = 0%nat).

(** One step of worker [i]; [None] when there is no such worker, when it
    has returned, or when it is blocked on the mutex. *)
Definition step_worker (i : nat) (st : state) : option state :=
  match workers st !! i with
  | None => None
  | Some w =>
      let move l := <[i := at_pc l w]> (workers st) in
      match w_pc w, w_call w with
      | Waiting, CallInsert _ _ =>
          if free (mutex_ st)
          then Some {| map_ := map_ st;
                       mutex_ := {| exclusive := true; shared := shared (mutex_ st) |};
                       workers := move Indexing |}
          else None
      | Waiting, CallRemove _ =>
          if free (mutex_ st)
          then Some {| map_ := map_ st;
                       mutex_ := {| exclusive := true; shared := shared (mutex_ st) |};
                       workers := move Erasing |}
          else None
      | Waiting, CallDisplay =>
          if exclusive (mutex_ st) then None
          else Some {| map_ := map_ st;
                       mutex_ := {| exclusive := false; shared := S (shared (mutex_ st)) |};
                       workers := move (Printing 0) |}
      | Indexing, CallInsert symbol _ =>
          Some {| map_ := index_symbol symbol (map_ st); mutex_ := mutex_ st;
                  workers := move Merging |}
      | Merging, CallInsert symbol order =>
          Some {| map_ := update_symbol symbol order (map_ st); mutex_ := mutex_ st;
                  workers := move Leaving |}
      | Erasing, CallRemove symbol =>
          Some {| map_ := remove symbol (map_ st); mutex_ := mutex_ st;
                  workers := move Leaving |}
      | Printing k, CallDisplay =>
          match display (map_ st) !! k with
          | Some line =>
              Some {| map_ := map_ st; mutex_ := mutex_ st;
                      workers :=
                        <[i := {| w_pc := Printing (S k); w_call := CallDisplay;
                                  w_out := w_out w ++ [line] |}]> (workers st) |}
          | None =>
              Some {| map_ := map_ st; mutex_ := mutex_ st; workers := move Leaving |}
          end
      | Leaving, CallDisplay =>
          Some {| map_ := map_ st;
                  mutex_ := {| exclusive := exclusive (mutex_ st);
                               shared := pred (shared (mutex_ st)) |};
                  workers := move Returned |}
      | Leaving, _ =>
          Some {| map_ := map_ st;
                  mutex_ := {| exclusive := false; shared := shared (mutex_ st) |};
                  workers := move Returned |}
      | _, _ => None
      end
  end.

(** An interleaving is the list of the workers picked, in order. *)
Fixpoint run_workers (sched : list nat) (st : state) : option state :=
  match sched with
  | [] => Some st
  | i :: sched' =>
      match step_worker i st with
      | Some st' => run_workers sched' st'
      | None => None
      end
  end.

(** One worker per call, each about to take its lock, on the book [map0]. *)
Definition start (calls : list call) (map0 : book) : state :=
  {| map_ := map0; mutex_ := {| exclusive := false; shared := 0 |};
     workers := (λ c, {| w_pc := Waiting; w_call := c; w_out := [] |}) <$> calls |}.

Definition returned (w : worker) : bool :=
  match w_pc w with Returned => true | _ => false end.

Definition all_returned (st : state) : bool := forallb returned (workers st).

(** The call as a call on the book, if it changes the book. *)
Definition op_of (c : call) : option op :=
  match c with
  | CallInsert symbol order => Some (Insert symbol order)
  | CallRemove symbol => Some (Remove symbol)
  | CallDisplay => None
  end.

(** The worker has done what its call does to the book. *)
Definition committed (w : worker) : bool :=
  match w_pc w with Leaving | Returned => true | _ => false end.

Definition commit_of (w : worker) : option op :=
  if committed w then op_of (w_call w) else None.

(** The changes already made to the book, in the order of the workers. *)
Definition done_writes (ws : list worker) : list op := omap commit_of ws.

(** Sum of a per-worker quantity over all workers. *)
Definition wsum (f : worker → Z) (ws : list worker) : Z :=
  foldr (λ w acc, f w + acc) 0 ws.

(** The worker is inside [insert] or [remove], holding the mutex
    exclusively. *)
Definition writing (w : worker) : Z :=
  match w_pc w, w_call w with
  | Indexing, CallInsert _ _ | Merging, CallInsert _ _
  | Erasing, CallRemove _
  | Leaving, CallInsert _ _ | Leaving, CallRemove _ => 1
  | _, _ => 0
  end.

(** The worker is inside [display], holding the mutex shared. *)
Definition reading (w : worker) : Z :=
  match w_pc w, w_call w with
  | Printing _, CallDisplay | Leaving, CallDisplay => 1
  | _, _ => 0
  end.

(** The worker is between the two steps of [insert]. *)
Definition halfway (w : worker) : Z :=
  match w_pc w, w_call w with
  | Merging, CallInsert _ _ => 1
  | _, _ => 0
  end.

(** The worker runs [insert] and has not yet run [map_[symbol]]. *)
Definition unindexed (w : worker) : Z :=
  match w_pc w, w_call w with
  | Waiting, CallInsert _ _ | Indexing, CallInsert _ _ => 1
  | _, _ => 0
  end.

(** The steps a worker has still to take, at most, when the book holds
    [n] symbols and [u] workers have not yet indexed theirs: [display]
    prints one line per symbol, and the book can grow by one symbol per
    such worker before [display] gets the lock. *)
Definition steps_left (n u : Z) (w : worker) : Z :=
  match w_pc w, w_call w with
  | Waiting, CallInsert _ _ => 4
  | Waiting, CallRemove _ => 3
  | Waiting, CallDisplay => 3 + n + u
  | Indexing, _ => 3
  | Merging, _ => 2
  | Erasing, _ => 2
  | Printing k, _ => 2 + Z.max 0 (n - Z.of_nat k)
  | Leaving, _ => 1
  | Returned, _ => 0
  end.

Definition fuel (st : state) : Z :=
  wsum (steps_left (Z.of_nat (size (map_ st))) (wsum unindexed (workers st)))
    (workers st).

(** The worker is outside its call, or holds the mutex as its call
    requires. *)
Definition consistent (w : worker) : Prop :=
  w_pc w = Waiting ∨ w_pc w = Returned ∨ writing w = 1 ∨ reading w = 1.

(** What a worker that runs [display] has printed: nothing before it has
    the lock; while it prints, the first lines of the book as it is; and
    afterwards all the lines of a book that an initial part of the changes
    made so far has left. *)
Definition shown (map0 : book) (log : list op) (now : book) (w : worker) : Prop :=
  match w_pc w with
  | Waiting => w_out w = []
  | Printing k => w_out w = take k (display now)
  | Leaving | Returned =>
      ∃ pre, pre `prefix_of` log ∧ w_out w = display (run pre map0)
  | _ => True
  end.

(** What holds of every state the workers can reach from [map0], for a
    sequence [log] of the changes made so far. *)
Record linear_invariant (map0 : book) (log : list op) (st : state) : Prop := {
  lin_consistent : Forall consistent (workers st);
  lin_exclusive : wsum writing (workers st) = Z.b2z (exclusive (mutex_ st));
  lin_shared : wsum reading (workers st) = Z.of_nat (shared (mutex_ st));
  lin_either : exclusive (mutex_ st) = true → shared (mutex_ st) = 0%nat;
  lin_log : log ≡ₚ done_writes (workers st);
  lin_idle : wsum halfway (workers st) = 0 → map_ st = run log map0;
  lin_halfway :
    ∀ i w symbol order,
      workers st !! i = Some w → w_pc w = Merging →
      w_call w = CallInsert symbol order →
      map_ st = index_symbol symbol (run log map0);
  lin_shown :
    ∀ i w, workers st !! i = Some w → w_call w = CallDisplay →
           shown map0 log (map_ st) w
}.

End Workers.

(** ** Kinds of calls *)

(** The call is an [insert]. *)
Definition is_insert (x : op) : bool :=
  match x with Insert _ _ => true | Remove _ => false end.

(** The call is made on symbol [s]. *)
Definition names (s : string) (x : op) : bool :=
  match x with Insert s' _ | Remove s' => bool_decide (s' = s) end.

(** ** Arithmetic of [int] *)

Section int_arith.

Lemma wrap_int_id z : is_int z → wrap_int z = z.
Proof.
  unfold is_int, INT_MIN, INT_MAX, wrap_int. intros Hz.
  rewrite Z.mod_small; lia.
Qed.

Lemma wrap_int_is_int z : is_int (wrap_int z).
Proof.
  unfold is_int, INT_MIN, INT_MAX, wrap_int.
  pose proof (Z.mod_pos_bound (z + 2147483648) 4294967296). lia.
Qed.

(** Wrapping an intermediate result does not change the final one. *)
Lemma wrap_int_add_l a b : wrap_int (wrap_int a + b) = wrap_int (a + b).
Proof.
  unfold wrap_int.
  replace ((a + 2147483648) mod 4294967296 - 2147483648 + b + 2147483648)
    with ((a + 2147483648) mod 4294967296 + b) by lia.
  rewrite Zplus_mod_idemp_l. f_equal. f_equal. lia.
Qed.

End int_arith.

(** ** What one call does to the book *)

Section single_call.

Implicit Types (b : book) (orders : gmap Z Order) (o c : Order) (p : Z).
Implicit Types (s : string).

Lemma move_assign_eq this o : move_assign this o = o.
Proof. by destruct o. Qed.

Lemma merge_order_None o orders :
  orders !! price o = None → merge_order o orders = <[price o := o]> orders.
Proof.
  intros Hnone. unfold merge_order, subscript. rewrite Hnone.
  by rewrite move_assign_eq, insert_insert_eq.
Qed.

Lemma merge_order_Some o c orders :
  orders !! price o = Some c →
  merge_order o orders = <[price o := fetch_add c (lotSize o)]> orders.
Proof. intros Hsome. unfold merge_order. by rewrite Hsome. Qed.

Lemma merge_order_eq o orders :
  merge_order o orders = <[price o := merged (orders !! price o) o]> orders.
Proof.
  destruct (orders !! price o) as [c|] eqn:E; simpl.
  - by apply merge_order_Some.
  - by apply merge_order_None.
Qed.

Lemma insert_eq s o b :
  insert s o b = <[s := merge_order o (default ∅ (b !! s))]> b.
Proof.
  unfold insert, update_symbol, index_symbol, subscript, at_key.
  destruct (b !! s) as [orders|] eqn:E.
  - by rewrite E.
  - by rewrite lookup_insert_eq, insert_insert_eq.
Qed.

Lemma insert_lookup s o b :
  insert s o b !! s = Some (merge_order o (default ∅ (b !! s))).
Proof. by rewrite insert_eq, lookup_insert_eq. Qed.

Lemma insert_lookup_ne s s' o b : s ≠ s' → insert s o b !! s' = b !! s'.
Proof. intros Hne. by rewrite insert_eq, lookup_insert_ne. Qed.

Lemma cell_insert_same s o b :
  cell (insert s o b) s (price o) = Some (merged (cell b s (price o)) o).
Proof.
  unfold cell. rewrite insert_lookup. simpl.
  rewrite merge_order_eq, lookup_insert_eq.
  by destruct (b !! s).
Qed.

Lemma cell_insert_other_price s o b p :
  p ≠ price o → cell (insert s o b) s p = cell b s p.
Proof.
  intros Hne. unfold cell. rewrite insert_lookup. simpl.
  rewrite merge_order_eq, lookup_insert_ne by done.
  by destruct (b !! s).
Qed.

Lemma cell_insert_other_symbol s s' o b p :
  s ≠ s' → cell (insert s o b) s' p = cell b s' p.
Proof. intros Hne. unfold cell. by rewrite insert_lookup_ne. Qed.

Lemma cell_remove_same s b p : cell (remove s b) s p = None.
Proof. unfold cell, remove. by rewrite lookup_delete_eq. Qed.

Lemma cell_remove_other s s' b p :
  s ≠ s' → cell (remove s b) s' p = cell b s' p.
Proof. intros Hne. unfold cell, remove. by rewrite lookup_delete_ne. Qed.

Lemma run_app ops1 ops2 b : run (ops1 ++ ops2) b = run ops2 (run ops1 b).
Proof. unfold run. by rewrite foldl_app. Qed.

Lemma run_snoc ops x b : run (ops ++ [x]) b = exec x (run ops b).
Proof. by rewrite run_app. Qed.

End single_call.

(** ** Sequences of calls *)

Section sequences.

Implicit Types (b : book) (orders : gmap Z Order) (o c : Order) (p : Z).
Implicit Types (s : string) (ops : list op).

Lemma cell_exec s p x b :
  x ≠ Remove s →
  cell (exec x b) s p =
    match x with
    | Insert _ o => if targets s p x then Some (merged (cell b s p) o)
                    else cell b s p
    | Remove _ => cell b s p
    end.
Proof.
  intros Hx. destruct x as [s' o|s']; simpl.
  - destruct (decide (s' = s)) as [->|Hs].
    + rewrite bool_decide_eq_true_2 by done. simpl.
      destruct (decide (price o = p)) as [<-|Hp].
      * rewrite bool_decide_eq_true_2 by done. apply cell_insert_same.
      * rewrite bool_decide_eq_false_2 by done.
        apply cell_insert_other_price. congruence.
    + rewrite bool_decide_eq_false_2 by done. simpl.
      by apply cell_insert_other_symbol.
  - apply cell_remove_other. congruence.
Qed.

(** Inserts into an existing cell: the stored quantity is the old one
    plus everything inserted, reduced to an [int]. *)
Lemma cell_run_existing s p ops : ∀ b c,
  cell b s p = Some c → is_int (lotSize c) →
  Forall (λ x, x ≠ Remove s) ops →
  cell (run ops b) s p
  = Some (mkOrder (wrap_int (lotSize c + sum_at s p ops)) (price c)).
Proof.
  induction ops as [|x ops IH]; intros b c Hc Hint Hrm.
  - simpl. rewrite Z.add_0_r, wrap_int_id by done. by destruct c.
  - apply Forall_cons in Hrm as [Hx Hrm].
    change (run (x :: ops) b) with (run ops (exec x b)).
    pose proof (cell_exec s p x b Hx) as Hstep.
    destruct x as [s' o|s']; cbn [exec] in *.
    + destruct (targets s p (Insert s' o)) eqn:Ht.
      * rewrite Hc in Hstep. simpl in Hstep.
        rewrite (IH _ _ Hstep) by (done || apply wrap_int_is_int).
        cbn [sum_at]. rewrite Ht. cbn [fetch_add lotSize price].
        by rewrite wrap_int_add_l, Z.add_assoc.
      * rewrite Hc in Hstep. rewrite (IH _ _ Hstep) by done.
        cbn [sum_at]. by rewrite Ht.
    + rewrite Hc in Hstep. by rewrite (IH _ _ Hstep) by done.
Qed.

(** Inserts at a pair the book lacks. *)
Lemma cell_run_fresh s p ops : ∀ b,
  cell b s p = None →
  Forall (λ x, x ≠ Remove s) ops → Forall well_typed_op ops →
  cell (run ops b) s p
  = if existsb (targets s p) ops
    then Some (mkOrder (wrap_int (sum_at s p ops)) p) else None.
Proof.
  induction ops as [|x ops IH]; intros b Hc Hrm Hwt; [done|].
  apply Forall_cons in Hrm as [Hx Hrm].
  apply Forall_cons in Hwt as [Hq Hwt].
  change (run (x :: ops) b) with (run ops (exec x b)).
  pose proof (cell_exec s p x b Hx) as Hstep.
  destruct x as [s' o|s']; cbn [exec] in *.
  - destruct (targets s p (Insert s' o)) eqn:Ht.
    + rewrite Hc in Hstep. simpl in Hstep.
      rewrite (cell_run_existing s p ops _ _ Hstep) by done.
      cbn [existsb sum_at]. rewrite Ht. simpl.
      simpl in Ht. apply andb_prop in Ht as [_ Hp].
      apply bool_decide_eq_true_1 in Hp. by rewrite Hp.
    + rewrite Hc in Hstep. rewrite (IH _ Hstep) by done.
      cbn [existsb sum_at]. by rewrite Ht.
  - rewrite Hc in Hstep. by rewrite (IH _ Hstep) by done.
Qed.

Lemma keyed_empty : keyed ∅.
Proof. intros s p c. unfold cell. by rewrite lookup_empty. Qed.

Lemma keyed_exec x b : keyed b → keyed (exec x b).
Proof.
  intros Hb s p c. destruct x as [s' o|s']; simpl.
  - destruct (decide (s' = s)) as [->|Hs].
    + destruct (decide (p = price o)) as [->|Hp].
      * rewrite cell_insert_same. intros [= <-].
        destruct (cell b s (price o)) as [c'|] eqn:E; [|done].
        simpl. eauto.
      * rewrite cell_insert_other_price by done. apply Hb.
    + rewrite cell_insert_other_symbol by done. apply Hb.
  - destruct (decide (s' = s)) as [->|Hs].
    + by rewrite cell_remove_same.
    + rewrite cell_remove_other by done. apply Hb.
Qed.

Lemma keyed_run ops : ∀ b, keyed b → keyed (run ops b).
Proof.
  induction ops as [|x ops IH]; intros b Hb; [done|].
  apply (IH (exec x b)). by apply keyed_exec.
Qed.

Lemma typed_book_empty : typed_book ∅.
Proof. intros s p c. unfold cell. by rewrite lookup_empty. Qed.

Lemma typed_book_exec x b : well_typed_op x → typed_book b → typed_book (exec x b).
Proof.
  intros Hx Hb s p c. destruct x as [s' o|s']; simpl.
  - destruct (decide (s' = s)) as [->|Hs].
    + destruct (decide (p = price o)) as [->|Hp].
      * rewrite cell_insert_same. intros [= <-].
        destruct (cell b s (price o)) as [c'|]; simpl; [|done].
        apply wrap_int_is_int.
      * rewrite cell_insert_other_price by done. apply Hb.
    + rewrite cell_insert_other_symbol by done. apply Hb.
  - destruct (decide (s' = s)) as [->|Hs].
    + by rewrite cell_remove_same.
    + rewrite cell_remove_other by done. apply Hb.
Qed.

Lemma typed_book_run ops : ∀ b,
  Forall well_typed_op ops → typed_book b → typed_book (run ops b).
Proof.
  induction ops as [|x ops IH]; intros b Hops Hb; [done|].
  apply Forall_cons in Hops as [Hx Hops].
  apply (IH (exec x b)); [done|]. by apply typed_book_exec.
Qed.

Lemma no_placeholder_empty : no_placeholder ∅.
Proof. intros s orders. by rewrite lookup_empty. Qed.

Lemma no_placeholder_exec x b : no_placeholder b → no_placeholder (exec x b).
Proof.
  intros Hb s orders. destruct x as [s' o|s']; simpl.
  - destruct (decide (s' = s)) as [->|Hs].
    + rewrite insert_lookup, merge_order_eq. intros [= <-].
      apply insert_non_empty.
    + rewrite insert_lookup_ne by done. apply Hb.
  - unfold remove. rewrite lookup_delete_Some. intros [_ ?]. eauto.
Qed.

Lemma no_placeholder_run ops : ∀ b, no_placeholder b → no_placeholder (run ops b).
Proof.
  induction ops as [|x ops IH]; intros b Hb; [done|].
  apply (IH (exec x b)). by apply no_placeholder_exec.
Qed.

End sequences.

(** ** What [display] shows *)

Section enumeration.

Implicit Types (b : book) (orders : gmap Z Order) (s : string).

Lemma elem_of_display b s line :
  (s, line) ∈ display b ↔ ∃ orders, b !! s = Some orders ∧ line = display_line orders.
Proof.
  unfold display. rewrite list_elem_of_fmap. split.
  - intros [[s' orders] [[= -> ->] Hin]]. simpl.
    apply elem_of_map_to_list in Hin. eauto.
  - intros (orders & Hs & ->). exists (s, orders). split; [done|].
    by apply elem_of_map_to_list.
Qed.

Lemma elem_of_display_line orders q p :
  (q, p) ∈ display_line orders ↔ ∃ c, orders !! p = Some c ∧ lotSize c = q.
Proof.
  unfold display_line. rewrite list_elem_of_fmap. split.
  - intros [[p' c] [[= -> ->] Hin]]. simpl.
    apply elem_of_map_to_list in Hin. eauto.
  - intros (c & Hp & <-). exists (p, c). split; [done|].
    by apply elem_of_map_to_list.
Qed.

Lemma symbols_eq b : symbols b = (map_to_list b).*1.
Proof.
  unfold symbols, display. rewrite <- list_fmap_compose.
  by apply list_fmap_ext.
Qed.

Lemma prices_eq orders : prices (display_line orders) = (map_to_list orders).*1.
Proof.
  unfold prices, display_line. rewrite <- list_fmap_compose.
  by apply list_fmap_ext.
Qed.

Lemma NoDup_symbols b : NoDup (symbols b).
Proof. rewrite symbols_eq. apply NoDup_fst_map_to_list. Qed.

Lemma NoDup_prices orders : NoDup (prices (display_line orders)).
Proof. rewrite prices_eq. apply NoDup_fst_map_to_list. Qed.

Lemma elem_of_symbols b s : s ∈ symbols b ↔ is_Some (b !! s).
Proof.
  rewrite symbols_eq, list_elem_of_fmap. split.
  - intros [[s' orders] [-> Hin]]. apply elem_of_map_to_list in Hin.
    simpl. eauto.
  - intros [orders Hs]. exists (s, orders). split; [done|].
    by apply elem_of_map_to_list.
Qed.

Lemma display_line_nil orders : display_line orders = [] → orders = ∅.
Proof.
  unfold display_line. intros Hnil. apply fmap_nil_inv in Hnil.
  by apply map_to_list_empty_iff.
Qed.

End enumeration.

(** ** Interleavings of inserting threads *)

Import Threads.

Section counting.

Implicit Types (f g : thread → Z) (ts : list thread) (t : thread).

Lemma tsum_cons f t ts : tsum f (t :: ts) = f t + tsum f ts.
Proof. done. Qed.

Lemma tsum_insert f ts : ∀ i t t',
  ts !! i = Some t → tsum f (<[i := t']> ts) = tsum f ts - f t + f t'.
Proof.
  induction ts as [|t0 ts IH]; intros i t t' Hi; [done|].
  destruct i as [|i]; simpl in *.
  - injection Hi as ->. lia.
  - rewrite (IH i t t' Hi). lia.
Qed.

Lemma tsum_app f ts1 ts2 : tsum f (ts1 ++ ts2) = tsum f ts1 + tsum f ts2.
Proof. induction ts1 as [|t ts1 IH]; simpl; lia. Qed.

Lemma tsum_nonneg f ts : (∀ t, 0 ≤ f t) → 0 ≤ tsum f ts.
Proof.
  intros Hf. induction ts as [|t ts IH]; simpl; [lia|].
  specialize (Hf t). lia.
Qed.

Lemma tsum_lookup_le f ts i t :
  (∀ t, 0 ≤ f t) → ts !! i = Some t → f t ≤ tsum f ts.
Proof.
  intros Hf. revert i. induction ts as [|t0 ts IH]; intros i Hi; [done|].
  destruct i as [|i]; simpl in *.
  - injection Hi as ->. pose proof (tsum_nonneg f ts Hf). lia.
  - specialize (IH i Hi). specialize (Hf t0). lia.
Qed.

Lemma tsum_pos_lookup f ts :
  (∀ t, 0 ≤ f t) → 0 < tsum f ts → ∃ i t, ts !! i = Some t ∧ 0 < f t.
Proof.
  intros Hf. induction ts as [|t0 ts IH]; simpl; [lia|]. intros Hpos.
  destruct (decide (0 < f t0)) as [Hlt|Hge].
  - by exists 0%nat, t0.
  - destruct IH as (i & t & Hi & Ht); [specialize (Hf t0); lia|].
    by exists (S i), t.
Qed.

Lemma tsum_zero f ts : Forall (λ t, f t = 0) ts → tsum f ts = 0.
Proof.
  induction 1 as [|t ts Ht _ IH]; [done|]. rewrite tsum_cons, Ht, IH. done.
Qed.

Lemma holding_nonneg t : 0 ≤ holding t.
Proof. unfold holding. destruct (t_pc t); lia. Qed.

Lemma indexing_nonneg t : 0 ≤ indexing t.
Proof. unfold indexing. destruct (t_pc t); lia. Qed.

Lemma merging_nonneg t : 0 ≤ merging t.
Proof. unfold merging. destruct (t_pc t); lia. Qed.

Lemma applied_nonneg t : 0 ≤ applied t.
Proof. unfold applied. destruct (t_pc t); lia. Qed.

Lemma remaining_nonneg t : 0 ≤ remaining t.
Proof. unfold remaining. destruct (t_pc t); lia. Qed.

(** At most as many threads index or merge as hold the lock. *)
Lemma indexing_merging_le ts :
  0 ≤ tsum indexing ts ∧ 0 ≤ tsum merging ts
  ∧ tsum indexing ts + tsum merging ts ≤ tsum holding ts.
Proof.
  induction ts as [|t ts IH]; [simpl; lia|]. rewrite !tsum_cons.
  assert (0 ≤ indexing t ∧ 0 ≤ merging t
          ∧ indexing t + merging t ≤ holding t) as Ht
    by (unfold indexing, merging, holding; destruct (t_pc t); lia).
  lia.
Qed.

(** Before any thread has merged, nothing has been merged. *)
Lemma applied_qty_zero ts : tsum applied ts = 0 → tsum applied_qty ts = 0.
Proof.
  induction ts as [|t ts IH]; [done|]. rewrite !tsum_cons.
  pose proof (tsum_nonneg applied ts applied_nonneg) as Hge.
  assert (0 ≤ applied t ∧ (applied t = 0 → applied_qty t = 0)) as Ht
    by (unfold applied, applied_qty; destruct (t_pc t); lia).
  lia.
Qed.

(** Once every thread has returned, everything has been merged. *)
Lemma all_finished_sums ts :
  forallb finished ts = true →
  tsum applied ts = Z.of_nat (length ts)
  ∧ tsum applied_qty ts = tsum quantity ts
  ∧ tsum merging ts = 0.
Proof.
  induction ts as [|t ts IH]; [done|].
  cbn [forallb length]. rewrite !tsum_cons.
  intros [Ht Hts]%andb_prop. destruct (IH Hts) as (IH1 & IH2 & IH3).
  assert (applied t = 1 ∧ applied_qty t = quantity t ∧ merging t = 0) as Hpc
    by (unfold finished in Ht; unfold applied, applied_qty, quantity, merging;
        destruct (t_pc t); done).
  lia.
Qed.

Lemma not_all_finished ts :
  forallb finished ts = false → ∃ i t, ts !! i = Some t ∧ finished t = false.
Proof.
  induction ts as [|t ts IH]; simpl; [done|].
  destruct (finished t) eqn:Ht; simpl.
  - intros (i & t' & Hi & Ht')%IH. by exists (S i), t'.
  - intros _. by exists 0%nat, t.
Qed.

End counting.

Section interleavings.

Variables (map0 : book) (s : string) (p : Z) (total : Z) (n : nat).
Hypothesis Hfresh : map0 !! s = None.

Lemma shape_idle a m d : a = 0 → m = 0 → shape map0 s p a m d = map0.
Proof. intros -> ->. done. Qed.

Lemma shape_indexed a m d :
  a = 0 → m ≠ 0 → shape map0 s p a m d = <[s := ∅]> map0.
Proof.
  intros -> Hm. unfold shape. simpl. by destruct (Z.eqb_spec m 0).
Qed.

Lemma shape_merged a m d :
  a ≠ 0 →
  shape map0 s p a m d = <[s := {[p := mkOrder (wrap_int d) p]}]> map0.
Proof. intros Ha. unfold shape. by destruct (Z.eqb_spec a 0). Qed.

Lemma index_symbol_fresh : index_symbol s map0 = <[s := ∅]> map0.
Proof. unfold index_symbol, subscript. by rewrite Hfresh. Qed.

Lemma index_symbol_bound orders :
  index_symbol s (<[s := orders]> map0) = <[s := orders]> map0.
Proof. unfold index_symbol, subscript. by rewrite lookup_insert_eq. Qed.

Lemma update_symbol_bound o orders :
  update_symbol s o (<[s := orders]> map0) = <[s := merge_order o orders]> map0.
Proof.
  unfold update_symbol, at_key.
  by rewrite lookup_insert_eq, insert_insert_eq.
Qed.

Lemma merge_order_first q :
  is_int q → merge_order (mkOrder q p) ∅ = {[p := mkOrder (wrap_int (0 + q)) p]}.
Proof.
  intros Hq. rewrite merge_order_None by done. simpl.
  by rewrite wrap_int_id.
Qed.

Lemma merge_order_next q d :
  merge_order (mkOrder q p) {[p := mkOrder (wrap_int d) p]}
  = {[p := mkOrder (wrap_int (d + q)) p]}.
Proof.
  erewrite merge_order_Some by apply lookup_singleton_eq. simpl.
  unfold fetch_add. simpl. by rewrite wrap_int_add_l, insert_singleton_eq.
Qed.

Ltac freeze_sums st :=
  set (sum_holding := tsum holding (threads st)) in *;
  set (sum_indexing := tsum indexing (threads st)) in *;
  set (sum_merging := tsum merging (threads st)) in *;
  set (sum_applied := tsum applied (threads st)) in *;
  set (sum_applied_qty := tsum applied_qty (threads st)) in *;
  set (sum_quantity := tsum quantity (threads st)) in *;
  set (sum_remaining := tsum remaining (threads st)) in *.

Ltac refold_sums :=
  repeat match goal with x := tsum _ _ |- _ => progress fold x end.

Ltac step_sums Hi :=
  rewrite ?(tsum_insert _ _ _ _ _ Hi);
  refold_sums;
  unfold holding, indexing, merging, applied, applied_qty, quantity,
    remaining, at_pc; cbn [t_pc t_order t_symbol lotSize price].

(** Every step of every thread keeps the invariant. *)
Lemma step_invariant i st st' :
  invariant map0 s p total n st → step_thread i st = Some st' →
  invariant map0 s p total n st'.
Proof.
  intros [Hm Hb Hc Ht Hn] Hstep. unfold step_thread in Hstep.
  destruct (threads st !! i) as [t|] eqn:Hi; [|done].
  pose proof (Forall_lookup_1 _ _ _ _ Hc Hi) as (Hs & Hp & Hwt).
  pose proof (tsum_lookup_le holding _ _ _ holding_nonneg Hi) as Hh.
  pose proof (tsum_lookup_le merging _ _ _ merging_nonneg Hi) as Hg.
  pose proof (tsum_lookup_le indexing _ _ _ indexing_nonneg Hi) as Hx.
  pose proof (indexing_merging_le (threads st)) as (Hi0 & Hm0 & Hle).
  pose proof (tsum_nonneg applied (threads st) applied_nonneg) as Ha0.
  pose proof (applied_qty_zero (threads st)) as Hq0.
  assert (0 ≤ Z.b2z (mutex_ st) ≤ 1) as Hb01 by (destruct (mutex_ st); simpl; lia).
  assert (∀ l, Forall (λ t, t_symbol t = s ∧ price (t_order t) = p
                            ∧ well_typed (t_order t))
                 (<[i := at_pc l t]> (threads st))) as Hc'.
  { intros l. apply Forall_insert; [done|]. by unfold at_pc. }
  destruct t as [l s' [q p']]. cbn [t_pc t_symbol t_order price] in *.
  subst s' p'. unfold well_typed in Hwt. cbn [lotSize] in Hwt.
  freeze_sums st.
  unfold holding in Hh. unfold merging in Hg. unfold indexing in Hx.
  cbn [t_pc] in Hh, Hg, Hx.
  destruct l; [destruct (mutex_ st) eqn:Hmx; [done|] | | | | done];
    injection Hstep as <-;
    (split; cbn [map_ mutex_ threads];
     [ | | apply Hc' | | by rewrite length_insert ]);
    step_sums Hi; try (simpl in *; lia).
  - (* lock taken: the book is untouched *)
    rewrite Hb. f_equal; lia.
  - (* map_[symbol] *)
    rewrite Hb. destruct (decide (sum_applied = 0)) as [Ha|Ha].
    + rewrite (shape_idle sum_applied sum_merging) by lia.
      rewrite shape_indexed by lia. apply index_symbol_fresh.
    + rewrite !shape_merged by lia.
      rewrite index_symbol_bound. do 4 f_equal. lia.
  - (* find, then fetch_add or create *)
    rewrite Hb. destruct (decide (sum_applied = 0)) as [Ha|Ha].
    + rewrite (shape_indexed sum_applied sum_merging) by lia.
      rewrite shape_merged by lia.
      rewrite update_symbol_bound, merge_order_first by done.
      by rewrite (Hq0 Ha).
    + rewrite !shape_merged by lia.
      rewrite update_symbol_bound, merge_order_next.
      do 4 f_equal. lia.
  - (* lock released: the book is untouched *)
    rewrite Hb. f_equal; lia.
Qed.

Lemma run_schedule_invariant sched : ∀ st st',
  invariant map0 s p total n st → run_schedule sched st = Some st' →
  invariant map0 s p total n st'.
Proof.
  induction sched as [|i sched IH]; intros st st' Hinv; simpl.
  - by intros [= <-].
  - destruct (step_thread i st) as [st1|] eqn:Hstep; [|done].
    apply IH. by apply (step_invariant i st).
Qed.

(** While a thread has not returned, some thread can move: the lock is
    never left held by a thread that cannot go on. *)
Lemma progress st :
  invariant map0 s p total n st → all_joined st = false →
  ∃ i st', step_thread i st = Some st'.
Proof.
  intros [Hm _ _ _ _] Hnot. unfold all_joined in Hnot.
  destruct (mutex_ st) eqn:Hmx; simpl in Hm.
  - destruct (tsum_pos_lookup holding (threads st) holding_nonneg)
      as (i & t & Hi & Ht); [lia|].
    exists i. unfold step_thread. rewrite Hi.
    unfold holding in Ht. destruct (t_pc t); eauto; lia.
  - destruct (not_all_finished _ Hnot) as (i & t & Hi & Ht).
    pose proof (tsum_lookup_le holding _ _ _ holding_nonneg Hi) as Hh.
    pose proof (holding_nonneg t) as Hge.
    exists i. unfold step_thread. rewrite Hi, Hmx.
    unfold holding in Hh, Hge. unfold finished in Ht.
    destruct (t_pc t); eauto; (done || lia).
Qed.

(** Every step uses up one of the steps that remain. *)
Lemma step_remaining i st st' :
  step_thread i st = Some st' →
  tsum remaining (threads st') = tsum remaining (threads st) - 1.
Proof.
  unfold step_thread. intros Hstep.
  destruct (threads st !! i) as [t|] eqn:Hi; [|done].
  destruct t as [l s' o]. cbn [t_pc t_symbol t_order] in Hstep.
  destruct l; [destruct (mutex_ st); [done|] | | | | done];
    injection Hstep as <-; cbn [threads];
    rewrite (tsum_insert _ _ _ _ _ Hi); unfold remaining, at_pc; simpl; lia.
Qed.

Lemma run_schedule_length sched : ∀ st st',
  run_schedule sched st = Some st' →
  Z.of_nat (length sched)
  = tsum remaining (threads st) - tsum remaining (threads st').
Proof.
  induction sched as [|i sched IH]; intros st st'; simpl.
  - intros [= <-]. lia.
  - destruct (step_thread i st) as [st1|] eqn:Hstep; [|done].
    intros Hrun. rewrite Nat2Z.inj_succ, (IH _ _ Hrun).
    rewrite (step_remaining _ _ _ Hstep). lia.
Qed.

(** From every reachable state the threads can be run to completion. *)
Lemma complete_schedule (k : nat) : ∀ st,
  invariant map0 s p total n st →
  tsum remaining (threads st) ≤ Z.of_nat k →
  ∃ sched st', run_schedule sched st = Some st' ∧ all_joined st' = true.
Proof.
  induction k as [|k IH]; intros st Hinv Hk;
    (destruct (all_joined st) eqn:Hall; [by exists [], st|]);
    destruct (progress st Hinv Hall) as (i & st1 & Hstep);
    pose proof (step_remaining _ _ _ Hstep) as Hdec.
  - pose proof (tsum_nonneg remaining (threads st1) remaining_nonneg). lia.
  - destruct (IH st1) as (sched & st' & Hrun & Hdone).
    + by apply (step_invariant i st).
    + lia.
    + exists (i :: sched), st'. simpl. by rewrite Hstep.
Qed.

(** The book once all threads have been joined. *)
Lemma joined_book st :
  (0 < n)%nat → invariant map0 s p total n st → all_joined st = true →
  map_ st = <[s := {[p := mkOrder (wrap_int total) p]}]> map0.
Proof.
  intros Hn [_ Hb _ Ht Hlen] Hall.
  destruct (all_finished_sums _ Hall) as (Ha & Hq & _).
  rewrite Hb, shape_merged by lia. by rewrite Hq, Ht.
Qed.

(** The state in which the threads are created. *)
Lemma initial_invariant ts :
  Forall (λ t, t_pc t = AtLock ∧ t_symbol t = s ∧ price (t_order t) = p
               ∧ well_typed (t_order t)) ts →
  tsum quantity ts = total → length ts = n →
  invariant map0 s p total n {| map_ := map0; mutex_ := false; threads := ts |}.
Proof.
  intros Hts Htotal Hlen.
  assert (∀ f, (∀ t, t_pc t = AtLock → f t = 0) → tsum f ts = 0) as Hzero.
  { intros f Hf. apply tsum_zero. eapply Forall_impl; [exact Hts|].
    intros t (Hpc & _). by apply Hf. }
  split; cbn [map_ mutex_ threads]; try done.
  - apply Hzero. intros t Hpc. unfold holding. by rewrite Hpc.
  - rewrite shape_idle; [done| |];
      apply Hzero; intros t Hpc; unfold applied, merging; by rewrite Hpc.
  - eapply Forall_impl; [exact Hts|]. by intros t (_ & ? & ? & ?).
Qed.

End interleavings.

(** ** Threads that insert [1 .. N] at one pair *)

Section concurrent_pair.

Variables (s : string) (p : Z).

Lemma spawn_at_length N : length (spawn_at s p N) = N.
Proof. unfold spawn_at. by rewrite length_fmap, length_seq. Qed.

Lemma spawn_at_S N :
  spawn_at s p (S N)
  = spawn_at s p N ++ [ {| t_pc := AtLock; t_symbol := s;
                           t_order := mkOrder (Z.of_nat N + 1) p |} ].
Proof. unfold spawn_at. by rewrite seq_S, fmap_app. Qed.

Lemma spawn_at_total N :
  tsum quantity (spawn_at s p N) = triangular (Z.of_nat N).
Proof.
  unfold triangular. apply Z.div_unique_exact; [lia|].
  induction N as [|N IH]; [done|].
  rewrite spawn_at_S, tsum_app. unfold quantity at 2.
  cbn [tsum foldr t_order lotSize]. lia.
Qed.

Lemma spawn_at_calls N :
  Z.of_nat N ≤ INT_MAX →
  Forall (λ t, t_pc t = AtLock ∧ t_symbol t = s
               ∧ price (t_order t) = p ∧ well_typed (t_order t))
    (spawn_at s p N).
Proof.
  intros HN. unfold spawn_at. apply Forall_fmap, Forall_forall.
  intros i Hi%elem_of_seq. simpl.
  unfold well_typed, is_int, INT_MIN, INT_MAX in *. simpl.
  repeat split; lia.
Qed.

(** Whatever the pair and the interleaving, the joined threads leave one
    cell that holds the sum of [1 .. N] as an [int]; and the threads can
    always be joined. *)
Lemma concurrent_inserts_joined (N : nat) map0 :
  (0 < N)%nat → Z.of_nat N ≤ INT_MAX → map0 !! s = None →
  (∃ sched st,
      run_schedule sched (concurrent_inserts s p N map0) = Some st
      ∧ all_joined st = true)
  ∧ ∀ sched st,
      run_schedule sched (concurrent_inserts s p N map0) = Some st →
      all_joined st = true →
      map_ st
      = <[s := {[p := mkOrder (wrap_int (triangular (Z.of_nat N))) p]}]> map0.
Proof.
  intros Hpos HN Hfresh.
  assert (invariant map0 s p (triangular (Z.of_nat N)) N
            (concurrent_inserts s p N map0)) as Hinit.
  { apply initial_invariant;
      auto using spawn_at_calls, spawn_at_total, spawn_at_length. }
  split.
  - apply (complete_schedule map0 s p (triangular (Z.of_nat N)) N Hfresh
             (Z.to_nat (tsum remaining (spawn_at s p N)))); [done|].
    cbn [concurrent_inserts threads].
    pose proof (tsum_nonneg remaining (spawn_at s p N) remaining_nonneg). lia.
  - intros sched st Hrun Hall.
    apply (joined_book map0 s p _ N); [done| |done].
    by apply (run_schedule_invariant map0 s p
                (triangular (Z.of_nat N)) N Hfresh sched
                (concurrent_inserts s p N map0)).
Qed.

End concurrent_pair.

(** ** The threads of [testConcurrentAccess] *)

Section concurrent_test.

Lemma testConcurrentAccess_eq N map0 :
  testConcurrentAccess N map0 = concurrent_inserts symbol level N map0.
Proof. done. Qed.

Lemma spawn_length N : length (spawn N) = N.
Proof. unfold spawn. by rewrite length_fmap, length_seq. Qed.

Lemma spawn_S N :
  spawn (S N) = spawn N ++ [ {| t_pc := AtLock; t_symbol := symbol;
                                t_order := mkOrder (Z.of_nat N + 1) level |} ].
Proof. unfold spawn. by rewrite seq_S, fmap_app. Qed.

Lemma spawn_total N : tsum quantity (spawn N) = triangular (Z.of_nat N).
Proof.
  unfold triangular. apply Z.div_unique_exact; [lia|].
  induction N as [|N IH]; [done|].
  rewrite spawn_S, tsum_app. unfold quantity at 2. cbn [tsum foldr t_order lotSize].
  lia.
Qed.

Lemma spawn_calls N :
  Z.of_nat N ≤ INT_MAX →
  Forall (λ t, t_pc t = AtLock ∧ t_symbol t = symbol
               ∧ price (t_order t) = level ∧ well_typed (t_order t))
    (spawn N).
Proof.
  intros HN. unfold spawn. apply Forall_fmap, Forall_forall.
  intros i Hi%elem_of_seq. simpl.
  unfold well_typed, is_int, INT_MIN, INT_MAX in *. simpl.
  repeat split; lia.
Qed.

Lemma spawn_remaining N : tsum remaining (spawn N) = 4 * Z.of_nat N.
Proof.
  induction N as [|N IH]; [done|].
  rewrite spawn_S, tsum_app, IH. unfold remaining at 1. simpl tsum. lia.
Qed.

Lemma all_finished_remaining ts :
  forallb finished ts = true → tsum remaining ts = 0.
Proof.
  induction ts as [|t ts IH]; [done|]. cbn [forallb]. rewrite tsum_cons.
  intros [Ht Hts]%andb_prop. rewrite (IH Hts).
  unfold finished in Ht. unfold remaining. by destruct (t_pc t).
Qed.

(** No interleaving runs for ever: the threads are joined after exactly
    four steps each. *)
Lemma joined_schedule_length N map0 sched st :
  run_schedule sched (testConcurrentAccess N map0) = Some st →
  all_joined st = true →
  length sched = (4 * N)%nat.
Proof.
  intros Hrun Hall. apply run_schedule_length in Hrun.
  cbn [testConcurrentAccess threads] in Hrun.
  rewrite spawn_remaining, (all_finished_remaining _ Hall) in Hrun. lia.
Qed.

(** Whatever the interleaving, the joined threads leave one cell that
    holds the sum of [1 .. N] as an [int]; and the threads can always be
    joined. *)
Lemma testConcurrentAccess_joined (N : nat) map0 :
  (0 < N)%nat → Z.of_nat N ≤ INT_MAX → map0 !! symbol = None →
  (∃ sched st,
      run_schedule sched (testConcurrentAccess N map0) = Some st
      ∧ all_joined st = true)
  ∧ ∀ sched st,
      run_schedule sched (testConcurrentAccess N map0) = Some st →
      all_joined st = true →
      map_ st
      = <[symbol := {[level := mkOrder (wrap_int (triangular (Z.of_nat N))) level]}]> map0.
Proof.
  intros Hpos HN Hfresh.
  assert (invariant map0 symbol level (triangular (Z.of_nat N)) N
            (testConcurrentAccess N map0)) as Hinit.
  { apply initial_invariant;
      auto using spawn_calls, spawn_total, spawn_length. }
  split.
  - apply (complete_schedule map0 symbol level (triangular (Z.of_nat N)) N Hfresh
             (Z.to_nat (tsum remaining (spawn N)))); [done|].
    cbn [testConcurrentAccess threads].
    pose proof (tsum_nonneg remaining (spawn N) remaining_nonneg). lia.
  - intros sched st Hrun Hall.
    apply (joined_book map0 symbol level _ N); [done| |done].
    by apply (run_schedule_invariant map0 symbol level
                (triangular (Z.of_nat N)) N Hfresh sched
                (testConcurrentAccess N map0)).
Qed.

End concurrent_test.

(** ** The properties of the order book *)

Section claims.

Implicit Types (b : book) (orders : gmap Z Order) (o c : Order) (p q : Z).
Implicit Types (s : string) (ops : list op).

(** C1 (as the code has it).  Take any sequence of calls that contains
    no [remove] of symbol [s] and at least one [insert] at [(s, p)],
    run from a book that has no cell at [(s, p)].  Afterwards the cell at
    [(s, p)] exists, records price [p], and its quantity is the sum of
    all quantities inserted at [(s, p)] reduced to a 32-bit [int]; it is
    the exact sum whenever the exact sum is an [int]. *)
Theorem insert_accumulates s p ops b :
  cell b s p = None →
  Forall (λ x, x ≠ Remove s) ops →
  Forall well_typed_op ops →
  existsb (targets s p) ops = true →
  cell (run ops b) s p = Some (mkOrder (wrap_int (sum_at s p ops)) p)
  ∧ (is_int (sum_at s p ops) →
     cell (run ops b) s p = Some (mkOrder (sum_at s p ops) p)).
Proof.
  intros Hnone Hrm Hwt Hsome.
  rewrite (cell_run_fresh s p ops b Hnone Hrm Hwt), Hsome.
  split; [done|]. intros Hint. by rewrite wrap_int_id.
Qed.

(** C2 (as the code has it).  Take any symbol [s] and price [p], and
    let [N >= 1] threads each call [insert] once, thread [i] with
    quantity [i + 1], all at the pair [(s, p)], on a book that does not
    hold [s] (the empty book for one), and let [N (N + 1) / 2] be at most
    [INT_MAX].  Then the threads can be run until all have returned, and
    whatever the interleaving of their steps, once all have returned [s]
    is bound to exactly one cell, at price [p], of quantity
    [N (N + 1) / 2]. *)
Theorem concurrent_inserts_sum (s : string) (p : Z) (N : nat) (map0 : book) :
  (1 ≤ N)%nat →
  triangular (Z.of_nat N) ≤ INT_MAX →
  map0 !! s = None →
  (∃ sched st,
      run_schedule sched (concurrent_inserts s p N map0) = Some st
      ∧ all_joined st = true)
  ∧ ∀ sched st,
      run_schedule sched (concurrent_inserts s p N map0) = Some st →
      all_joined st = true →
      map_ st = <[s := {[p := mkOrder (triangular (Z.of_nat N)) p]}]> map0
      ∧ cell (map_ st) s p = Some (mkOrder (triangular (Z.of_nat N)) p)
      ∧ (size <$> map_ st !! s) = Some 1%nat.
Proof.
  intros Hpos Hmax Hfresh.
  assert (Z.of_nat N ≤ triangular (Z.of_nat N)) as Hle.
  { unfold triangular. apply Z.div_le_lower_bound; nia. }
  assert (is_int (triangular (Z.of_nat N))) as Hint
    by (unfold is_int, INT_MIN; lia).
  destruct (concurrent_inserts_joined s p N map0) as [Hex Hall]; [lia..|done|].
  split; [done|]. intros sched st Hrun Hjoined.
  rewrite (Hall sched st Hrun Hjoined), wrap_int_id by done.
  split; [done|]. unfold cell. rewrite lookup_insert_eq. simpl.
  split; [apply lookup_singleton_eq|]. by rewrite map_size_singleton.
Qed.

(** C3.  After any sequence of [insert] and [remove] calls on the empty
    book, [display] lists no symbol twice; the line of a symbol lists no
    price twice and is not empty; a symbol has one line only and a price
    one quantity only; and a symbol that is removed next is not bound at
    all, hence not listed. *)
Theorem one_cell_per_pair ops s line :
  (s, line) ∈ display (run ops ∅) →
  NoDup (symbols (run ops ∅))
  ∧ NoDup (prices line)
  ∧ line ≠ []
  ∧ (∀ line', (s, line') ∈ display (run ops ∅) → line' = line)
  ∧ (∀ q q' p, (q, p) ∈ line → (q', p) ∈ line → q = q')
  ∧ (∀ s', run (ops ++ [Remove s']) ∅ !! s' = None
           ∧ s' ∉ symbols (run (ops ++ [Remove s']) ∅)).
Proof.
  intros (orders & Hs & ->)%elem_of_display.
  split; [apply NoDup_symbols|].
  split; [apply NoDup_prices|].
  split.
  { intros Hnil%display_line_nil.
    by apply (no_placeholder_run ops ∅ no_placeholder_empty s orders). }
  split.
  { intros line' (orders' & Hs' & ->)%elem_of_display. congruence. }
  split.
  { intros q q' p (c & Hc & <-)%elem_of_display_line
                  (c' & Hc' & <-)%elem_of_display_line. congruence. }
  intros s'. rewrite run_snoc. cbn [exec]. unfold remove.
  split; [apply lookup_delete_eq|].
  rewrite elem_of_symbols, lookup_delete_eq. by intros [? ?].
Qed.

(** C4.  [remove(s)] leaves [s] unbound: no cell of [s] survives and
    [display] does not list [s].  An [insert] for [s] that follows
    binds [s] to the single cell of that order, exactly as on a book
    that never held [s]. *)
Theorem remove_erases_symbol b s :
  remove s b !! s = None
  ∧ (s ∉ symbols (remove s b))
  ∧ (∀ p, cell (remove s b) s p = None)
  ∧ (∀ o, insert s o (remove s b) !! s = Some {[price o := o]}
          ∧ insert s o (remove s b) !! s = insert s o ∅ !! s).
Proof.
  assert (remove s b !! s = None) as Hgone by apply lookup_delete_eq.
  split; [done|]. split.
  { rewrite elem_of_symbols, Hgone. by intros [? ?]. }
  split; [intros p; apply cell_remove_same|].
  intros o. rewrite !insert_lookup, Hgone, lookup_empty. simpl.
  by rewrite merge_order_None.
Qed.

(** C6.  When [s] is bound to [orders] and [orders] has no cell at the
    price of [o], [insert(s, o)] binds [s] to [orders] with the one new
    cell [o] added: one cell more, and every cell that was there is
    still there with the same price and quantity. *)
Theorem insert_new_price_frame b s orders o :
  b !! s = Some orders →
  orders !! price o = None →
  ∃ orders',
    insert s o b !! s = Some orders'
    ∧ orders' = <[price o := o]> orders
    ∧ size orders' = S (size orders)
    ∧ orders' !! price o = Some o
    ∧ (∀ p, p ≠ price o → orders' !! p = orders !! p)
    ∧ (∀ p c, orders !! p = Some c → orders' !! p = Some c).
Proof.
  intros Hs Hp. exists (<[price o := o]> orders).
  split; [by rewrite insert_lookup, Hs; simpl; rewrite merge_order_None|].
  split; [done|].
  split; [by apply map_size_insert_None|].
  split; [apply lookup_insert_eq|].
  split.
  - intros p Hne. by rewrite lookup_insert_ne.
  - intros p c Hc. rewrite lookup_insert_ne; [done|]. congruence.
Qed.

(** C7.  An [insert] into symbol [A] leaves every other symbol [B] as
    it was: bound or not, with the same inner map, hence the same
    prices and quantities. *)
Theorem insert_other_symbol_frame b A B o :
  A ≠ B →
  insert A o b !! B = b !! B
  ∧ (∀ p, cell (insert A o b) B p = cell b B p).
Proof.
  intros Hne. split; [by apply insert_lookup_ne|].
  intros p. by apply cell_insert_other_symbol.
Qed.

(** C8 (as the code has it).  A merge-add of a quantity that is not
    negative, into a cell whose quantity stays within [INT_MAX], leaves
    the cell with the old quantity plus the inserted one, which is not
    below the old quantity. *)
Theorem merge_add_monotone b s o c :
  cell b s (price o) = Some c →
  is_int (lotSize c) →
  0 ≤ lotSize o →
  lotSize c + lotSize o ≤ INT_MAX →
  ∃ c', cell (insert s o b) s (price o) = Some c'
        ∧ lotSize c' = lotSize c + lotSize o
        ∧ lotSize c ≤ lotSize c'.
Proof.
  intros Hc [Hlo Hhi] Hq Hsum.
  exists (fetch_add c (lotSize o)).
  rewrite cell_insert_same, Hc. simpl.
  rewrite wrap_int_id by (unfold is_int; lia). split; [done|]. lia.
Qed.

(** C9.  After any sequence of [insert] and [remove] calls on the empty
    book, a cell stored under price [p] records price [p], also when it
    was created by move-assignment into a value-initialised slot. *)
Theorem cell_key_consistent ops s orders p c :
  run ops ∅ !! s = Some orders →
  orders !! p = Some c →
  price c = p.
Proof.
  intros Hs Hp. apply (keyed_run ops ∅ keyed_empty s p c).
  unfold cell. by rewrite Hs.
Qed.

(** C10.  An [insert] of quantity 0 at a pair the book lacks binds the
    symbol and creates a cell of quantity 0 at that price, which
    [display] shows; at a pair the book holds it leaves the cell, and
    the whole book, as they were. *)
Theorem insert_zero_quantity b s p :
  (cell b s p = None →
     cell (insert s (mkOrder 0 p) b) s p = Some (mkOrder 0 p)
     ∧ is_Some (insert s (mkOrder 0 p) b !! s)
     ∧ ∃ line, (s, line) ∈ display (insert s (mkOrder 0 p) b)
               ∧ (0, p) ∈ line)
  ∧ (∀ c, cell b s p = Some c → is_int (lotSize c) →
       cell (insert s (mkOrder 0 p) b) s p = Some c
       ∧ insert s (mkOrder 0 p) b = b).
Proof.
  split.
  - intros Hnone.
    pose proof (cell_insert_same s (mkOrder 0 p) b) as Hcell.
    cbn [price] in Hcell. rewrite Hnone in Hcell. simpl in Hcell.
    split; [done|]. split; [rewrite insert_lookup; eauto|].
    unfold cell in Hcell.
    destruct (insert s (mkOrder 0 p) b !! s) as [orders|] eqn:Hs; [|done].
    exists (display_line orders). split.
    + apply elem_of_display. eauto.
    + apply elem_of_display_line. eauto.
  - intros c Hc Hint.
    pose proof (cell_insert_same s (mkOrder 0 p) b) as Hcell.
    cbn [price] in Hcell. rewrite Hc in Hcell. simpl in Hcell.
    assert (fetch_add c 0 = c) as Hsame.
    { unfold fetch_add. rewrite Z.add_0_r, wrap_int_id by done. by destruct c. }
    rewrite Hsame in Hcell. split; [done|].
    unfold cell in Hc. destruct (b !! s) as [orders|] eqn:Hs; [|done].
    simpl in Hc. rewrite insert_eq, Hs. simpl.
    erewrite merge_order_Some by exact Hc. simpl.
    rewrite Hsame. by rewrite (insert_id orders), insert_id.
Qed.

End claims.

(** ** Inputs on which the stated properties fail, and instances *)

Section instances.

Ltac typed := repeat constructor; unfold well_typed, is_int, INT_MIN, INT_MAX; simpl; lia.

(** Two inserts at one pair whose exact sum is not an [int]: the cell
    holds the wrapped sum. *)
Lemma insert_sum_overflows :
  Forall well_typed_op
    [Insert "A" (mkOrder 2147483647 1); Insert "A" (mkOrder 1 1)]
  ∧ sum_at "A" 1 [Insert "A" (mkOrder 2147483647 1); Insert "A" (mkOrder 1 1)]
    = 2147483648
  ∧ cell (run [Insert "A" (mkOrder 2147483647 1); Insert "A" (mkOrder 1 1)] ∅)
      "A" 1
    = Some (mkOrder (-2147483648) 1)
  ∧ cell (run [Insert "A" (mkOrder 2147483647 1); Insert "A" (mkOrder 1 1)] ∅)
      "A" 1
    ≠ Some (mkOrder
              (sum_at "A" 1
                 [Insert "A" (mkOrder 2147483647 1); Insert "A" (mkOrder 1 1)])
              1).
Proof.
  split; [typed|]. split; [reflexivity|]. split; [by vm_compute|].
  by vm_compute.
Qed.

(** 65536 threads: the sum of [1 .. 65536] is above [INT_MAX], and every
    interleaving ends with a negative quantity in the cell. *)
Lemma concurrent_sum_overflows :
  (∃ sched st,
      run_schedule sched (testConcurrentAccess (Z.to_nat 65536) ∅) = Some st
      ∧ all_joined st = true)
  ∧ (∀ sched st,
      run_schedule sched (testConcurrentAccess (Z.to_nat 65536) ∅) = Some st →
      all_joined st = true →
      cell (map_ st) symbol level = Some (mkOrder (-2147450880) level))
  ∧ -2147450880 ≠ triangular 65536.
Proof.
  destruct (testConcurrentAccess_joined (Z.to_nat 65536) ∅) as [Hex Hall].
  - lia.
  - unfold INT_MAX. lia.
  - apply lookup_empty.
  - split; [done|]. split; [|by vm_compute].
    intros sched st Hrun Hjoined. rewrite (Hall sched st Hrun Hjoined).
    unfold cell. rewrite lookup_insert_eq. simpl.
    rewrite lookup_singleton_eq, Z2Nat.id by lia. reflexivity.
Qed.

(** A merge-add that lowers the quantity: of a negative quantity, and of
    a positive one that overflows. *)
Lemma merge_add_decreases :
  (cell (insert "A" (mkOrder 10 1) ∅) "A" 1 = Some (mkOrder 10 1)
   ∧ cell (insert "A" (mkOrder (-3) 1) (insert "A" (mkOrder 10 1) ∅)) "A" 1
     = Some (mkOrder 7 1)
   ∧ 7 < 10)
  ∧ (cell (insert "A" (mkOrder 2147483647 1) ∅) "A" 1
     = Some (mkOrder 2147483647 1)
     ∧ cell (insert "A" (mkOrder 1 1) (insert "A" (mkOrder 2147483647 1) ∅))
         "A" 1
       = Some (mkOrder (-2147483648) 1)
     ∧ -2147483648 < 2147483647).
Proof. repeat split; by vm_compute. Qed.

(** The inserts of [testInsert]: 10 and 20 at price 2 make 30. *)
Lemma insert_accumulates_witness :
  let ops := [Insert "TEST" (mkOrder 10 2); Insert "TEST" (mkOrder 20 2);
              Insert "TEST" (mkOrder 5 3)] in
  cell ∅ "TEST" 2 = None
  ∧ Forall (λ x, x ≠ Remove "TEST") ops
  ∧ Forall well_typed_op ops
  ∧ existsb (targets "TEST" 2) ops = true
  ∧ cell (run ops ∅) "TEST" 2 = Some (mkOrder 30 2).
Proof.
  intros ops.
  assert (cell ∅ "TEST" 2 = None) as H1 by reflexivity.
  assert (Forall (λ x, x ≠ Remove "TEST") ops) as H2
    by (repeat constructor; discriminate).
  assert (Forall well_typed_op ops) as H3 by typed.
  assert (existsb (targets "TEST" 2) ops = true) as H4 by reflexivity.
  repeat (split; [assumption|]).
  exact (proj1 (insert_accumulates "TEST" 2 ops ∅ H1 H2 H3 H4)).
Defined.

(** Ten threads at another pair than that of the test leave 55. *)
Lemma concurrent_inserts_sum_witness :
  (1 ≤ 10)%nat
  ∧ triangular (Z.of_nat 10) ≤ INT_MAX
  ∧ (∅ : book) !! "RELIANCE" = None
  ∧ ∀ sched st,
      run_schedule sched (concurrent_inserts "RELIANCE" 7 10 ∅) = Some st →
      all_joined st = true →
      cell (map_ st) "RELIANCE" 7 = Some (mkOrder 55 7).
Proof.
  assert ((1 ≤ 10)%nat) as H1 by lia.
  assert (triangular (Z.of_nat 10) ≤ INT_MAX) as H2 by (vm_compute; discriminate).
  assert ((∅ : book) !! "RELIANCE" = None) as H3 by reflexivity.
  repeat (split; [assumption|]).
  intros sched st Hrun Hjoined.
  exact (proj1 (proj2 (proj2 (concurrent_inserts_sum "RELIANCE" 7 10 ∅ H1 H2 H3)
                         sched st Hrun Hjoined))).
Defined.

(** One symbol, one line, one price after two merged inserts. *)
Lemma one_cell_per_pair_witness :
  let ops := [Insert "TEST" (mkOrder 10 2); Insert "TEST" (mkOrder 20 2);
              Remove "OLD"] in
  ("TEST", [(30, 2)]) ∈ display (run ops ∅)
  ∧ NoDup (symbols (run ops ∅))
  ∧ NoDup (prices [(30, 2)]).
Proof.
  intros ops.
  assert (("TEST", [(30, 2)]) ∈ display (run ops ∅)) as H1
    by (vm_compute; constructor).
  split; [assumption|].
  pose proof (one_cell_per_pair ops "TEST" [(30, 2)] H1) as (Ha & Hb & _).
  by split.
Defined.

(** The third insert of [testInsert]: price 3 joins price 2. *)
Lemma insert_new_price_frame_witness :
  let b := insert "TEST" (mkOrder 30 2) ∅ in
  b !! "TEST" = Some {[2 := mkOrder 30 2]}
  ∧ ({[2 := mkOrder 30 2]} : gmap Z Order) !! price (mkOrder 5 3) = None
  ∧ ∃ orders', insert "TEST" (mkOrder 5 3) b !! "TEST" = Some orders'
               ∧ size orders' = 2%nat
               ∧ orders' !! 2 = Some (mkOrder 30 2).
Proof.
  intros b.
  assert (b !! "TEST" = Some {[2 := mkOrder 30 2]}) as H1 by reflexivity.
  assert (({[2 := mkOrder 30 2]} : gmap Z Order) !! price (mkOrder 5 3) = None)
    as H2 by reflexivity.
  repeat (split; [assumption|]).
  destruct (insert_new_price_frame b "TEST" _ (mkOrder 5 3) H1 H2)
    as (orders' & Hs & _ & Hsize & _ & _ & Hkeep).
  exists orders'. split; [assumption|]. split; [exact Hsize|].
  apply Hkeep. reflexivity.
Defined.

(** Two of the symbols of [main]. *)
Lemma insert_other_symbol_frame_witness :
  "NESTLEIND" ≠ "HDFCBANK"
  ∧ insert "NESTLEIND" (mkOrder 20 2) (insert "HDFCBANK" (mkOrder 10 2) ∅)
      !! "HDFCBANK"
    = insert "HDFCBANK" (mkOrder 10 2) ∅ !! "HDFCBANK".
Proof.
  assert ("NESTLEIND" ≠ "HDFCBANK") as H1 by discriminate.
  split; [assumption|].
  exact (proj1 (insert_other_symbol_frame _ "NESTLEIND" "HDFCBANK"
                  (mkOrder 20 2) H1)).
Defined.

(** 20 merged into a cell of 10. *)
Lemma merge_add_monotone_witness :
  let b := insert "TEST" (mkOrder 10 2) ∅ in
  cell b "TEST" (price (mkOrder 20 2)) = Some (mkOrder 10 2)
  ∧ is_int (lotSize (mkOrder 10 2))
  ∧ 0 ≤ lotSize (mkOrder 20 2)
  ∧ lotSize (mkOrder 10 2) + lotSize (mkOrder 20 2) ≤ INT_MAX
  ∧ ∃ c', cell (insert "TEST" (mkOrder 20 2) b) "TEST" 2 = Some c'
          ∧ lotSize c' = 30.
Proof.
  intros b.
  assert (cell b "TEST" (price (mkOrder 20 2)) = Some (mkOrder 10 2)) as H1
    by reflexivity.
  assert (is_int (lotSize (mkOrder 10 2))) as H2 by typed.
  assert (0 ≤ lotSize (mkOrder 20 2)) as H3 by (simpl; lia).
  assert (lotSize (mkOrder 10 2) + lotSize (mkOrder 20 2) ≤ INT_MAX) as H4
    by (unfold INT_MAX; simpl; lia).
  repeat (split; [assumption|]).
  destruct (merge_add_monotone b "TEST" (mkOrder 20 2) (mkOrder 10 2)
              H1 H2 H3 H4) as (c' & Hc' & Hq & _).
  exists c'. split; [exact Hc'|exact Hq].
Defined.

(** A cell created after its symbol had been removed. *)
Lemma cell_key_consistent_witness :
  let ops := [Insert "TEST" (mkOrder 10 2); Remove "TEST";
              Insert "TEST" (mkOrder 15 3)] in
  run ops ∅ !! "TEST" = Some {[3 := mkOrder 15 3]}
  ∧ ({[3 := mkOrder 15 3]} : gmap Z Order) !! 3 = Some (mkOrder 15 3)
  ∧ price (mkOrder 15 3) = 3.
Proof.
  intros ops.
  assert (run ops ∅ !! "TEST" = Some {[3 := mkOrder 15 3]}) as H1 by reflexivity.
  assert (({[3 := mkOrder 15 3]} : gmap Z Order) !! 3 = Some (mkOrder 15 3))
    as H2 by reflexivity.
  repeat (split; [assumption|]).
  exact (cell_key_consistent ops "TEST" _ 3 (mkOrder 15 3) H1 H2).
Defined.

(** Quantity 0 on the empty book, and on a book that holds the pair. *)
Lemma insert_zero_quantity_witness :
  (cell ∅ "TEST" 2 = None
   ∧ cell (insert "TEST" (mkOrder 0 2) ∅) "TEST" 2 = Some (mkOrder 0 2))
  ∧ (let b := insert "TEST" (mkOrder 10 2) ∅ in
     cell b "TEST" 2 = Some (mkOrder 10 2)
     ∧ is_int (lotSize (mkOrder 10 2))
     ∧ insert "TEST" (mkOrder 0 2) b = b).
Proof.
  split.
  - assert (cell ∅ "TEST" 2 = None) as H1 by reflexivity.
    split; [assumption|].
    exact (proj1 (proj1 (insert_zero_quantity ∅ "TEST" 2) H1)).
  - intros b.
    assert (cell b "TEST" 2 = Some (mkOrder 10 2)) as H1 by reflexivity.
    assert (is_int (lotSize (mkOrder 10 2))) as H2 by typed.
    repeat (split; [assumption|]).
    exact (proj2 (proj2 (insert_zero_quantity b "TEST" 2) _ H1 H2)).
Defined.

End instances.

(** ** How calls compose *)

Section composition.

Implicit Types (b : book) (orders : gmap Z Order) (o c : Order) (p q : Z).
Implicit Types (s : string) (ops : list op).

Lemma fetch_add_commute c q1 q2 :
  fetch_add (fetch_add c q1) q2 = fetch_add (fetch_add c q2) q1.
Proof.
  unfold fetch_add. simpl. f_equal.
  rewrite !wrap_int_add_l. f_equal. lia.
Qed.

Lemma merge_order_commute o1 o2 orders :
  merge_order o1 (merge_order o2 orders) = merge_order o2 (merge_order o1 orders).
Proof.
  rewrite !merge_order_eq.
  destruct (decide (price o1 = price o2)) as [Heq|Hne].
  - rewrite Heq, !lookup_insert_eq, !insert_insert_eq. f_equal.
    destruct (orders !! price o2) as [c|]; simpl.
    + apply fetch_add_commute.
    + unfold fetch_add. rewrite Heq. f_equal. f_equal. lia.
  - rewrite !lookup_insert_ne by congruence.
    by apply insert_insert_ne.
Qed.

Lemma inserts_commute s1 o1 s2 o2 b :
  insert s1 o1 (insert s2 o2 b) = insert s2 o2 (insert s1 o1 b).
Proof.
  rewrite !insert_eq.
  destruct (decide (s1 = s2)) as [->|Hne].
  - rewrite !lookup_insert_eq, !insert_insert_eq. simpl.
    by rewrite merge_order_commute.
  - rewrite !lookup_insert_ne by congruence.
    by apply insert_insert_ne.
Qed.

Lemma exec_inserts_commute x y b :
  is_insert x = true → is_insert y = true →
  exec x (exec y b) = exec y (exec x b).
Proof.
  destruct x as [s1 o1|?], y as [s2 o2|?]; try done. intros _ _.
  apply inserts_commute.
Qed.

Lemma run_cons x ops b : run (x :: ops) b = run ops (exec x b).
Proof. done. Qed.

(** X1.  The order in which a batch of [insert] calls is made does not
    matter: two sequences with the same calls, in any order, leave the
    same book. *)
Theorem run_inserts_permutation ops1 ops2 b :
  forallb is_insert ops1 = true →
  ops1 ≡ₚ ops2 →
  run ops1 b = run ops2 b.
Proof.
  intros Hall Hperm. apply Is_true_eq_left, forallb_True in Hall.
  revert b. induction Hperm as [|x l1 l2 _ IH|x y l|l1 l2 l3 H12 IH1 H23 IH2];
    intros b.
  - done.
  - apply Forall_cons in Hall as [_ Hall]. rewrite !run_cons. by apply IH.
  - apply Forall_cons in Hall as [Hy Hall].
    apply Forall_cons in Hall as [Hx _].
    rewrite !run_cons. f_equal.
    apply exec_inserts_commute; by apply Is_true_eq_true.
  - rewrite IH1 by done. apply IH2. by rewrite <- H12.
Qed.

(** X2.  Two inserts at one (symbol, price) pair leave the book that one
    insert of the summed quantity leaves, provided the sum is an [int]. *)
Theorem insert_twice_merges b s p q1 q2 :
  is_int (q1 + q2) →
  insert s (mkOrder q2 p) (insert s (mkOrder q1 p) b)
  = insert s (mkOrder (q1 + q2) p) b.
Proof.
  intros Hint. rewrite !insert_eq, lookup_insert_eq, insert_insert_eq.
  simpl. f_equal. rewrite !merge_order_eq. cbn [price lotSize].
  rewrite lookup_insert_eq, insert_insert_eq. f_equal.
  destruct (default ∅ (b !! s) !! p) as [c|]; simpl.
  - unfold fetch_add. simpl. rewrite wrap_int_add_l. do 2 f_equal. lia.
  - unfold fetch_add. simpl. by rewrite wrap_int_id.
Qed.

(** What a call does to the inner map of [s] depends on that inner map
    only. *)
Lemma exec_lookup x b s :
  exec x b !! s =
    match x with
    | Insert s' o =>
        if bool_decide (s' = s) then Some (merge_order o (default ∅ (b !! s)))
        else b !! s
    | Remove s' => if bool_decide (s' = s) then None else b !! s
    end.
Proof.
  destruct x as [s' o|s']; simpl; case_bool_decide as Hs.
  - subst s'. apply insert_lookup.
  - by apply insert_lookup_ne.
  - subst s'. apply lookup_delete_eq.
  - by apply lookup_delete_ne.
Qed.

Lemma run_lookup_ext ops s : ∀ b1 b2,
  b1 !! s = b2 !! s → run ops b1 !! s = run ops b2 !! s.
Proof.
  induction ops as [|x ops IH]; intros b1 b2 Heq; [done|].
  rewrite !run_cons. apply IH. by rewrite !exec_lookup, Heq.
Qed.

(** X3.  After [remove(s)], what the book holds for [s] depends only on
    the calls made since: it is what the same calls leave on an empty
    book, whatever was inserted before the [remove]. *)
Theorem remove_resets_symbol ops1 ops2 b s :
  run (ops1 ++ Remove s :: ops2) b !! s = run ops2 ∅ !! s.
Proof.
  rewrite run_app, run_cons. apply run_lookup_ext.
  simpl. unfold remove. by rewrite lookup_delete_eq, lookup_empty.
Qed.

(** X4.  What a sequence of calls leaves for symbol [s] is what its calls
    on [s] alone leave: calls on other symbols can be dropped from the
    sequence without changing the inner map of [s]. *)
Theorem symbol_independent ops s : ∀ b,
  run ops b !! s = run (List.filter (names s) ops) b !! s.
Proof.
  induction ops as [|x ops IH]; intros b; [done|].
  rewrite run_cons. cbn [List.filter].
  destruct (names s x) eqn:Hx.
  - rewrite run_cons. apply IH.
  - rewrite IH. apply run_lookup_ext. rewrite exec_lookup.
    destruct x as [s' o|s']; simpl in Hx; by rewrite Hx.
Qed.

(** X5.  Calls other than [remove(s)] never delete or re-price a cell of
    [s]: a cell that is there stays, under the same price. *)
Theorem cells_persist ops s p : ∀ b c,
  cell b s p = Some c →
  Forall (λ x, x ≠ Remove s) ops →
  ∃ c', cell (run ops b) s p = Some c' ∧ price c' = price c.
Proof.
  induction ops as [|x ops IH]; intros b c Hc Hrm; [by exists c|].
  apply Forall_cons in Hrm as [Hx Hrm]. rewrite run_cons.
  pose proof (cell_exec s p x b Hx) as Hstep. rewrite Hc in Hstep.
  destruct x as [s' o|s'].
  - destruct (targets s p (Insert s' o)).
    + destruct (IH _ _ Hstep Hrm) as (c' & Hc' & Hp). by exists c'.
    + by apply (IH _ c).
  - by apply (IH _ c).
Qed.

End composition.

(** ** What [display] prints, and how calls change it *)

Section printing.

Implicit Types (b : book) (orders : gmap Z Order) (o c : Order) (p q : Z).
Implicit Types (s : string).

(** X6.  [display] prints the cells of the book and nothing else: [q] is
    printed at price [p] on the line of [s] exactly when the cell stored
    for [(s, p)] has quantity [q]; and there is one line per symbol bound
    in the book. *)
Theorem display_shows_cells b s p q :
  ((∃ line, (s, line) ∈ display b ∧ (q, p) ∈ line)
   ↔ (∃ c, cell b s p = Some c ∧ lotSize c = q))
  ∧ length (display b) = size b.
Proof.
  split; [split|].
  - intros (line & (orders & Hs & ->)%elem_of_display
                 & (c & Hc & Hq)%elem_of_display_line).
    exists c. unfold cell. by rewrite Hs.
  - intros (c & Hc & Hq). unfold cell in Hc.
    destruct (b !! s) as [orders|] eqn:Hs; [|done]. simpl in Hc.
    exists (display_line orders). split.
    + apply elem_of_display. eauto.
    + apply elem_of_display_line. eauto.
  - unfold display. by rewrite length_fmap, length_map_to_list.
Qed.

(** X7.  [remove(s)] of a symbol the book holds takes the line of [s] out
    of what [display] prints and leaves every other line as it was (the
    order of the lines apart). *)
Theorem display_remove b s orders :
  b !! s = Some orders →
  display b ≡ₚ (s, display_line orders) :: display (remove s b).
Proof.
  intros Hs. unfold display, remove.
  by rewrite <- (map_to_list_delete b s orders Hs).
Qed.

(** X8.  The first [insert] for a symbol adds one line to what [display]
    prints, with the one cell of the order, and leaves every other line
    as it was (the order of the lines apart). *)
Theorem display_insert_new_symbol b s o :
  b !! s = None →
  display (insert s o b) ≡ₚ (s, [(lotSize o, price o)]) :: display b.
Proof.
  intros Hs. rewrite insert_eq, Hs. simpl.
  rewrite merge_order_None by done.
  unfold display. rewrite map_to_list_insert by done.
  rewrite fmap_cons. simpl. unfold display_line at 1.
  by rewrite insert_empty, map_to_list_singleton.
Qed.

End printing.

(** ** The self-tests *)

Import SelfTest.

Section self_tests.

Implicit Types (b : book) (orders : gmap Z Order) (o c : Order) (p q : Z).

Lemma size_one_singleton orders p c :
  size orders = 1%nat → orders !! p = Some c → orders = {[p := c]}.
Proof.
  intros Hsize Hp.
  assert (delete p orders = ∅) as Hrest.
  { apply map_size_empty_iff. rewrite map_size_delete, Hp, Hsize. done. }
  by rewrite <- (insert_delete_id orders p c Hp), Hrest.
Qed.

Lemma at_lookup `{Countable K} {V : Type} (m : gmap K V) k v :
  m !! k = Some v → at_ m k = Passed v.
Proof. intros Hk. unfold at_. by rewrite Hk. Qed.

(** The three inserts of [testInsert] once the first has left a single
    cell [c1] under price 2. *)
Lemma testInsert_single b c1 :
  insert "TEST" (mkOrder 10 2) b !! "TEST" = Some {[2 := c1]} →
  testInsert b =
    if bool_decide (lotSize c1 = 10)
    then Passed (after_testInsert (price c1) b)
    else AssertionFailed.
Proof.
  intros H1. unfold testInsert.
  rewrite (at_lookup _ _ _ H1). cbn [mbind outcome_bind].
  rewrite map_size_singleton, bool_decide_eq_true_2 by done.
  cbn [assert mbind outcome_bind].
  rewrite (at_lookup _ _ _ (lookup_singleton_eq _ _)).
  cbn [mbind outcome_bind].
  case_bool_decide as Hq; cbn [assert mbind outcome_bind]; [|done].
  assert (insert "TEST" (mkOrder 20 2) (insert "TEST" (mkOrder 10 2) b) !! "TEST"
          = Some {[2 := mkOrder 30 (price c1)]}) as H2.
  { rewrite insert_lookup, H1. simpl.
    erewrite merge_order_Some by apply lookup_singleton_eq.
    rewrite insert_singleton_eq. unfold fetch_add. by rewrite Hq. }
  rewrite (at_lookup _ _ _ H2). cbn [mbind outcome_bind].
  rewrite map_size_singleton, bool_decide_eq_true_2 by done.
  cbn [assert mbind outcome_bind].
  rewrite (at_lookup _ _ _ (lookup_singleton_eq _ _)).
  cbn [mbind outcome_bind assert lotSize bool_decide]. simpl bool_decide.
  cbn [assert mbind outcome_bind].
  assert (insert "TEST" (mkOrder 5 3)
            (insert "TEST" (mkOrder 20 2) (insert "TEST" (mkOrder 10 2) b))
          = after_testInsert (price c1) b) as H3.
  { rewrite (insert_eq "TEST" (mkOrder 5 3)), H2. simpl.
    rewrite merge_order_None by done. simpl.
    rewrite !insert_eq. by rewrite !insert_insert_eq. }
  rewrite H3. unfold after_testInsert.
  rewrite (at_lookup _ _ _ (lookup_insert_eq _ _ _)). cbn [mbind outcome_bind].
  rewrite map_size_insert_None, map_size_singleton by done.
  rewrite bool_decide_eq_true_2 by done. cbn [assert mbind outcome_bind].
  assert ((<[3 := mkOrder 5 3]> {[2 := mkOrder 30 (price c1)]} : gmap Z Order) !! 2
          = Some (mkOrder 30 (price c1))) as H4 by done.
  rewrite (at_lookup _ _ _ H4). cbn [mbind outcome_bind lotSize].
  simpl bool_decide. cbn [assert mbind outcome_bind].
  rewrite (at_lookup _ _ _ (lookup_insert_eq _ _ _)). done.
Qed.

Lemma testInsert_crowded b :
  size (merge_order (mkOrder 10 2) (default ∅ (b !! "TEST"))) ≠ 1%nat →
  testInsert b = AssertionFailed.
Proof.
  intros Hsize. unfold testInsert.
  rewrite (at_lookup _ _ _ (insert_lookup "TEST" (mkOrder 10 2) b)).
  cbn [mbind outcome_bind].
  by rewrite (bool_decide_eq_false_2 _ Hsize).
Qed.

Lemma ready_for_testInsert_iff b :
  ready_for_testInsert b ↔
  ∃ c1, merge_order (mkOrder 10 2) (default ∅ (b !! "TEST")) = {[2 := c1]}
        ∧ lotSize c1 = 10.
Proof.
  rewrite merge_order_eq. cbn [price]. split.
  - intros [Hb|[Hb|(c & Hb & Hc)]]; rewrite Hb; simpl.
    + by exists (mkOrder 10 2).
    + by exists (mkOrder 10 2).
    + rewrite lookup_singleton_eq, insert_singleton_eq. simpl.
      by exists (fetch_add c 10).
  - intros (c1 & Hone & Hq). unfold ready_for_testInsert.
    set (m0 := default ∅ (b !! "TEST")) in *.
    assert (size (<[2 := merged (m0 !! 2) (mkOrder 10 2)]> m0) = 1%nat) as Hsize
      by (rewrite Hone; apply map_size_singleton).
    assert (<[2 := merged (m0 !! 2) (mkOrder 10 2)]> m0 !! 2 = Some c1) as Hc1
      by (rewrite Hone; apply lookup_singleton_eq).
    rewrite lookup_insert_eq in Hc1. injection Hc1 as Hc1.
    destruct (m0 !! 2) as [c|] eqn:H2.
    + rewrite map_size_insert_Some in Hsize by eauto.
      pose proof (size_one_singleton m0 2 c Hsize H2) as Hm0.
      right. right. exists c. simpl in Hc1. subst c1. split; [|done].
      unfold m0 in Hm0. destruct (b !! "TEST") as [m|]; simpl in Hm0.
      * by rewrite Hm0.
      * by apply (f_equal (.!! 2)) in Hm0.
    + rewrite map_size_insert_None in Hsize by done.
      assert (m0 = ∅) as Hm0 by (apply map_size_empty_iff; lia).
      unfold m0 in Hm0. destruct (b !! "TEST") as [m|]; simpl in Hm0.
      * right. left. by rewrite Hm0.
      * by left.
Qed.

(** X9.  [testInsert] passes exactly on the books where "TEST" has no
    cell, or only a cell under price 2 whose quantity plus 10 is 10 as an
    [int]; on every other book its first or second [assert] fails, and on
    no book does an [at] throw. *)
Theorem testInsert_passes_iff b :
  testInsert b ≠ OutOfRange
  ∧ ((∃ b', testInsert b = Passed b') ↔ ready_for_testInsert b).
Proof.
  rewrite ready_for_testInsert_iff.
  destruct (decide (size (merge_order (mkOrder 10 2) (default ∅ (b !! "TEST")))
                    = 1%nat)) as [Hsize|Hsize].
  - assert (merge_order (mkOrder 10 2) (default ∅ (b !! "TEST")) !! 2
            = Some (merged (default ∅ (b !! "TEST") !! 2) (mkOrder 10 2))) as Hc1
      by (rewrite merge_order_eq; apply lookup_insert_eq).
    pose proof (size_one_singleton _ _ _ Hsize Hc1) as Hone.
    rewrite (testInsert_single b _ (eq_trans (insert_lookup _ _ _) (f_equal Some Hone))).
    case_bool_decide as Hq.
    + split; [done|]. split; [eauto|eauto].
    + split; [done|]. split; [by intros [? ?]|].
      intros (c1 & Hone' & Hq'). rewrite Hone in Hone'.
      apply (f_equal (.!! 2)) in Hone'. rewrite !lookup_singleton_eq in Hone'.
      congruence.
  - rewrite (testInsert_crowded b Hsize). split; [done|].
    split; [by intros [? ?]|].
    intros (c1 & Hone & _). rewrite Hone, map_size_singleton in Hsize. done.
Qed.

(** X10.  [testInsert] cannot be run twice in a row: on the book that a
    passing run leaves, "TEST" holds two price levels and the first
    [assert] of the next run fails. *)
Theorem testInsert_not_rerunnable b b' :
  testInsert b = Passed b' →
  testInsert b' = AssertionFailed
  ∧ size <$> b' !! "TEST" = Some 2%nat.
Proof.
  intros Hpass.
  assert (ready_for_testInsert b) as Hready
    by (apply testInsert_passes_iff; eauto).
  apply ready_for_testInsert_iff in Hready as (c1 & Hone & Hq).
  rewrite (testInsert_single b c1) in Hpass
    by (rewrite insert_lookup; by f_equal).
  rewrite bool_decide_eq_true_2 in Hpass by done. injection Hpass as <-.
  unfold after_testInsert. split.
  - apply testInsert_crowded. rewrite lookup_insert_eq. simpl.
    rewrite merge_order_eq. cbn [price].
    rewrite map_size_insert_Some by (by eexists).
    by rewrite map_size_insert_None, map_size_singleton.
  - rewrite lookup_insert_eq. simpl.
    by rewrite map_size_insert_None, map_size_singleton.
Qed.

(** X11.  [testRemove] passes on every book and leaves it without
    "TEST", every other symbol as it was; after it [testInsert] passes
    again. *)
Theorem testRemove_resets b :
  testRemove b = Passed (remove "TEST" b)
  ∧ (∀ s, s ≠ "TEST" → remove "TEST" b !! s = b !! s)
  ∧ ∃ b', testInsert (remove "TEST" b) = Passed b'.
Proof.
  split; [|split].
  - unfold testRemove, remove. rewrite lookup_delete_eq.
    rewrite bool_decide_eq_true_2 by done. cbn [assert mbind outcome_bind mret outcome_ret].
    rewrite insert_eq. by rewrite delete_insert_eq.
  - intros s Hs. unfold remove. by rewrite lookup_delete_ne.
  - apply testInsert_passes_iff. left. unfold remove. apply lookup_delete_eq.
Qed.

End self_tests.

(** ** Interleavings of any inserting threads *)

Section serial.

Implicit Types (ts : list thread) (t : thread) (st : state).

Lemma merged_calls_cons t ts :
  merged_calls (t :: ts)
  = (if has_merged t then [call_of t] else []) ++ merged_calls ts.
Proof. unfold merged_calls. simpl. by destruct (has_merged t). Qed.

(** A thread that moves on without merging, or after having merged. *)
Lemma merged_calls_insert_same ts : ∀ i t t',
  ts !! i = Some t → has_merged t' = has_merged t → call_of t' = call_of t →
  merged_calls (<[i := t']> ts) = merged_calls ts.
Proof.
  induction ts as [|t0 ts IH]; intros i t t' Hi Hm Hc; [done|].
  destruct i as [|i]; simpl in Hi.
  - injection Hi as ->. cbn [base.insert list_insert].
    by rewrite !merged_calls_cons, Hm, Hc.
  - cbn [base.insert list_insert]. rewrite !merged_calls_cons.
    f_equal. by apply (IH i t).
Qed.

(** A thread that merges. *)
Lemma merged_calls_insert_new ts : ∀ i t t',
  ts !! i = Some t → has_merged t = false → has_merged t' = true →
  merged_calls (<[i := t']> ts) ≡ₚ merged_calls ts ++ [call_of t'].
Proof.
  induction ts as [|t0 ts IH]; intros i t t' Hi Hm Hm'; [done|].
  destruct i as [|i]; simpl in Hi.
  - injection Hi as ->. cbn [base.insert list_insert].
    rewrite !merged_calls_cons, Hm, Hm'. simpl.
    by rewrite Permutation_cons_append.
  - cbn [base.insert list_insert]. rewrite !merged_calls_cons.
    rewrite (IH i t t' Hi Hm Hm'). by rewrite app_assoc.
Qed.

Lemma merged_calls_inserts ts : forallb is_insert (merged_calls ts) = true.
Proof.
  induction ts as [|t ts IH]; [done|]. rewrite merged_calls_cons.
  rewrite forallb_app, IH. by destruct (has_merged t).
Qed.

Lemma merged_calls_finished ts :
  forallb finished ts = true → merged_calls ts = call_of <$> ts.
Proof.
  induction ts as [|t ts IH]; [done|]. cbn [forallb].
  intros [Ht Hts]%andb_prop. rewrite merged_calls_cons, (IH Hts).
  unfold finished in Ht. unfold has_merged. by destruct (t_pc t).
Qed.

Lemma tsum_two (f : thread → Z) ts : ∀ i j ti tj,
  (∀ t, 0 ≤ f t) → i ≠ j → ts !! i = Some ti → ts !! j = Some tj →
  f ti + f tj ≤ tsum f ts.
Proof.
  induction ts as [|t0 ts IH]; intros i j ti tj Hf Hne Hi Hj; [done|].
  rewrite tsum_cons. destruct i as [|i], j as [|j]; simpl in Hi, Hj.
  - done.
  - injection Hi as ->. pose proof (tsum_lookup_le f ts j tj Hf Hj). lia.
  - injection Hj as ->. pose proof (tsum_lookup_le f ts i ti Hf Hi). lia.
  - pose proof (IH i j ti tj Hf ltac:(congruence) Hi Hj). specialize (Hf t0). lia.
Qed.

Lemma call_of_at_pc l t : call_of (at_pc l t) = call_of t.
Proof. done. Qed.

Lemma calls_insert ts i t l :
  ts !! i = Some t → call_of <$> <[i := at_pc l t]> ts = call_of <$> ts.
Proof.
  intros Hi. rewrite list_fmap_insert, call_of_at_pc.
  apply list_insert_id. by rewrite list_lookup_fmap, Hi.
Qed.

(** Every step of every thread keeps the invariant. *)
Lemma serial_step map0 calls i st st' :
  serial_invariant map0 calls st → step_thread i st = Some st' →
  serial_invariant map0 calls st'.
Proof.
  intros [Hm Hidle Hmg Hcalls] Hstep. unfold step_thread in Hstep.
  destruct (threads st !! i) as [t|] eqn:Hi; [|done].
  pose proof (tsum_lookup_le holding _ _ _ holding_nonneg Hi) as Hh.
  pose proof (tsum_lookup_le merging _ _ _ merging_nonneg Hi) as Hg.
  pose proof (tsum_lookup_le indexing _ _ _ indexing_nonneg Hi) as Hx.
  pose proof (indexing_merging_le (threads st)) as (Hi0 & Hm0 & Hle).
  assert (0 ≤ Z.b2z (mutex_ st) ≤ 1) as Hb01 by (destruct (mutex_ st); simpl; lia).
  assert (∀ j tj, j ≠ i → threads st !! j = Some tj → holding t = 1 →
                  t_pc tj = AtMerge → False) as Halone.
  { intros j tj Hne Hj Ht Htj.
    pose proof (tsum_two holding _ j i tj t holding_nonneg Hne Hj Hi) as H2.
    unfold holding at 1 in H2. rewrite Htj in H2. lia. }
  set (sum_holding := tsum holding (threads st)) in *.
  set (sum_merging := tsum merging (threads st)) in *.
  set (sum_indexing := tsum indexing (threads st)) in *.
  destruct (t_pc t) eqn:Hpc;
    [destruct (mutex_ st) eqn:Hmx; [done|] | | | | done];
    injection Hstep as <-; split; cbn [map_ mutex_ threads];
    try (by rewrite calls_insert);
    rewrite ?(tsum_insert _ _ _ _ _ Hi);
    fold sum_holding sum_merging sum_indexing;
    unfold holding, merging, indexing in Hh, Hg, Hx, Halone |- *;
    rewrite ?Hpc in *; cbn [at_pc t_pc] in *.
  - (* lock *) simpl in Hm |- *. lia.
  - intros HM.
    rewrite (merged_calls_insert_same _ i t) by (done || by unfold has_merged; rewrite Hpc).
    apply Hidle. lia.
  - intros j tj Hj Htj.
    apply list_lookup_insert_Some in Hj as [(-> & <- & _)|(Hne & Hj)]; [done|].
    rewrite (merged_calls_insert_same _ i t) by (done || by unfold has_merged; rewrite Hpc).
    by apply (Hmg j).
  - (* index *) lia.
  - intros HM. lia.
  - intros j tj Hj Htj.
    rewrite (merged_calls_insert_same _ i t) by (done || by unfold has_merged; rewrite Hpc).
    apply list_lookup_insert_Some in Hj as [(-> & <- & _)|(Hne & Hj)].
    + cbn [t_symbol]. f_equal. apply Hidle. lia.
    + exfalso. by apply (Halone j tj).
  - (* merge *) lia.
  - intros _.
    rewrite (run_inserts_permutation _
               (merged_calls (threads st) ++ [call_of (at_pc AtUnlock t)]));
      [|apply merged_calls_inserts
       |by apply (merged_calls_insert_new _ i t);
          unfold has_merged; cbn [at_pc t_pc]; rewrite ?Hpc].
    rewrite run_snoc. cbn [call_of exec at_pc t_symbol t_order]. unfold insert.
    f_equal. by apply (Hmg i).
  - intros j tj Hj Htj.
    apply list_lookup_insert_Some in Hj as [(-> & <- & _)|(Hne & Hj)]; [done|].
    exfalso. by apply (Halone j tj).
  - (* unlock *) simpl in Hm |- *. lia.
  - intros HM.
    rewrite (merged_calls_insert_same _ i t) by (done || by unfold has_merged; rewrite Hpc).
    apply Hidle. lia.
  - intros j tj Hj Htj.
    apply list_lookup_insert_Some in Hj as [(-> & <- & _)|(Hne & Hj)]; [done|].
    rewrite (merged_calls_insert_same _ i t) by (done || by unfold has_merged; rewrite Hpc).
    by apply (Hmg j).
Qed.

Lemma serial_run map0 calls sched : ∀ st st',
  serial_invariant map0 calls st → run_schedule sched st = Some st' →
  serial_invariant map0 calls st'.
Proof.
  induction sched as [|i sched IH]; intros st st' Hinv; simpl.
  - by intros [= <-].
  - destruct (step_thread i st) as [st1|] eqn:Hstep; [|done].
    apply IH. by apply (serial_step map0 calls i st).
Qed.

Lemma launch_threads calls map0 :
  Forall (λ t, t_pc t = AtLock) (threads (launch calls map0)).
Proof. unfold launch. cbn [threads]. by apply Forall_fmap, Forall_true. Qed.

Lemma merged_calls_none ts :
  Forall (λ t, t_pc t = AtLock) ts → merged_calls ts = [].
Proof.
  induction 1 as [|t ts Ht _ IH]; [done|].
  rewrite merged_calls_cons, IH. unfold has_merged. by rewrite Ht.
Qed.

Lemma launch_invariant calls map0 :
  serial_invariant map0 (in_sequence calls) (launch calls map0).
Proof.
  pose proof (launch_threads calls map0) as Hts.
  assert (∀ f, (∀ t, t_pc t = AtLock → f t = 0) →
               tsum f (threads (launch calls map0)) = 0) as Hzero.
  { intros f Hf. apply tsum_zero. eapply Forall_impl; [exact Hts|]. done. }
  pose proof (merged_calls_none _ Hts) as Hnone.
  split.
  - apply Hzero. intros t Hpc. unfold holding. by rewrite Hpc.
  - intros _. by rewrite Hnone.
  - intros i t Hi Hpc.
    pose proof (Forall_lookup_1 _ _ _ _ Hts Hi) as Hlock. simpl in Hlock.
    congruence.
  - unfold launch, in_sequence. cbn [threads].
    rewrite <- list_fmap_compose. by apply list_fmap_ext.
Qed.

Lemma run_schedule_app sched1 sched2 : ∀ st,
  run_schedule (sched1 ++ sched2) st
  = run_schedule sched1 st ≫= run_schedule sched2.
Proof.
  induction sched1 as [|i sched1 IH]; intros st; [done|]. simpl.
  destruct (step_thread i st); [apply IH|done].
Qed.

(** As long as a thread has not returned, a thread can move. *)
Lemma progress_any st :
  tsum holding (threads st) = Z.b2z (mutex_ st) → all_joined st = false →
  ∃ i st', step_thread i st = Some st'.
Proof.
  intros Hm Hnot. unfold all_joined in Hnot.
  destruct (mutex_ st) eqn:Hmx; simpl in Hm.
  - destruct (tsum_pos_lookup holding (threads st) holding_nonneg)
      as (i & t & Hi & Ht); [lia|].
    exists i. unfold step_thread. rewrite Hi.
    unfold holding in Ht. destruct (t_pc t); eauto; lia.
  - destruct (not_all_finished _ Hnot) as (i & t & Hi & Ht).
    pose proof (tsum_lookup_le holding _ _ _ holding_nonneg Hi) as Hh.
    pose proof (holding_nonneg t) as Hge.
    exists i. unfold step_thread. rewrite Hi, Hmx.
    unfold holding in Hh, Hge. unfold finished in Ht.
    destruct (t_pc t); eauto; (done || lia).
Qed.

Lemma completion map0 calls (k : nat) : ∀ st,
  serial_invariant map0 calls st →
  tsum remaining (threads st) ≤ Z.of_nat k →
  ∃ sched st', run_schedule sched st = Some st' ∧ all_joined st' = true.
Proof.
  induction k as [|k IH]; intros st Hinv Hk;
    (destruct (all_joined st) eqn:Hall; [by exists [], st|]);
    destruct (progress_any st (ser_mutex _ _ _ Hinv) Hall) as (i & st1 & Hstep);
    pose proof (step_remaining _ _ _ Hstep) as Hdec.
  - pose proof (tsum_nonneg remaining (threads st1) remaining_nonneg). lia.
  - destruct (IH st1) as (sched & st' & Hrun & Hdone).
    + by apply (serial_step map0 calls i st).
    + lia.
    + exists (i :: sched), st'. simpl. by rewrite Hstep.
Qed.

Lemma launch_remaining calls map0 :
  tsum remaining (threads (launch calls map0)) = 4 * Z.of_nat (length calls).
Proof.
  unfold launch. cbn [threads].
  induction calls as [|c calls IH]; [done|].
  rewrite fmap_cons, tsum_cons, IH. unfold remaining at 1. simpl t_pc.
  cbn [length]. lia.
Qed.

(** X12.  Mutual exclusion.  Whatever calls the threads make and however
    their steps interleave, at most one thread is inside the body of
    [insert] at a time, and the lock is held exactly when one is. *)
Theorem mutual_exclusion calls map0 sched st :
  run_schedule sched (launch calls map0) = Some st →
  (∀ i j ti tj,
      threads st !! i = Some ti → threads st !! j = Some tj →
      holding ti = 1 → holding tj = 1 → i = j)
  ∧ (mutex_ st = true ↔ ∃ i t, threads st !! i = Some t ∧ holding t = 1).
Proof.
  intros Hrun.
  pose proof (serial_run _ _ _ _ _ (launch_invariant calls map0) Hrun) as Hinv.
  pose proof (ser_mutex _ _ _ Hinv) as Hm.
  assert (0 ≤ Z.b2z (mutex_ st) ≤ 1) as Hb01 by (destruct (mutex_ st); simpl; lia).
  split.
  - intros i j ti tj Hi Hj Hti Htj.
    destruct (decide (i = j)) as [|Hne]; [done|].
    pose proof (tsum_two holding _ i j ti tj holding_nonneg Hne Hi Hj). lia.
  - split.
    + intros Hmx. rewrite Hmx in Hm. simpl in Hm.
      destruct (tsum_pos_lookup holding (threads st) holding_nonneg)
        as (i & t & Hi & Ht); [lia|].
      exists i, t. split; [done|]. unfold holding in *. destruct (t_pc t); lia.
    + intros (i & t & Hi & Ht).
      pose proof (tsum_lookup_le holding _ _ _ holding_nonneg Hi).
      destruct (mutex_ st); [done|]. simpl in Hm. lia.
Qed.

(** X13.  No deadlock, no endless run.  Every interleaving that has been
    run so far can be continued until all threads have returned; no
    interleaving has more than four steps per thread, and one that ends
    with all threads returned has exactly four per thread. *)
Theorem interleavings_complete calls map0 sched st :
  run_schedule sched (launch calls map0) = Some st →
  (∃ sched' st',
      run_schedule (sched ++ sched') (launch calls map0) = Some st'
      ∧ all_joined st' = true)
  ∧ (length sched ≤ 4 * length calls)%nat
  ∧ (all_joined st = true → length sched = (4 * length calls)%nat).
Proof.
  intros Hrun.
  pose proof (serial_run _ _ _ _ _ (launch_invariant calls map0) Hrun) as Hinv.
  pose proof (run_schedule_length _ _ _ Hrun) as Hlen.
  rewrite launch_remaining in Hlen.
  pose proof (tsum_nonneg remaining (threads st) remaining_nonneg) as Hge.
  split; [|split].
  - destruct (completion map0 (in_sequence calls)
                (Z.to_nat (tsum remaining (threads st))) st Hinv)
      as (sched' & st' & Hrun' & Hall); [lia|].
    exists sched', st'. by rewrite run_schedule_app, Hrun.
  - lia.
  - intros Hall. rewrite (all_finished_remaining _ Hall) in Hlen. lia.
Qed.

(** X14.  Every interleaving is equivalent to a sequence.  Whenever the
    lock is free, the book is the one that the calls of the threads that
    have merged leave when made one after the other; and once all threads
    have returned it is the book that all the calls leave when made one
    after the other in the order of the threads, whatever the
    interleaving was. *)
Theorem interleavings_serial calls map0 sched st :
  run_schedule sched (launch calls map0) = Some st →
  (mutex_ st = false → map_ st = run (merged_calls (threads st)) map0)
  ∧ (all_joined st = true → map_ st = run (in_sequence calls) map0).
Proof.
  intros Hrun.
  pose proof (serial_run _ _ _ _ _ (launch_invariant calls map0) Hrun)
    as [Hm Hidle _ Hcalls].
  pose proof (indexing_merging_le (threads st)) as (Hi0 & Hm0 & Hle).
  split.
  - intros Hmx. rewrite Hmx in Hm. simpl in Hm. apply Hidle. lia.
  - intros Hall. unfold all_joined in Hall.
    destruct (all_finished_sums _ Hall) as (_ & _ & HM).
    rewrite (Hidle HM), (merged_calls_finished _ Hall). by rewrite Hcalls.
Qed.

End serial.

(** ** The checks of [testConcurrentAccess] *)

Section concurrent_checks.

Implicit Types (b : book) (c : Order) (ops : list op).

Lemma wrap_int_add_ne q T : is_int q → is_int T → q ≠ 0 → wrap_int (q + T) ≠ T.
Proof.
  unfold is_int, INT_MIN, INT_MAX, wrap_int. intros Hq HT Hne Heq.
  pose proof (Z.div_mod (q + T + 2147483648) 4294967296 ltac:(lia)) as Hdm.
  lia.
Qed.

Lemma testConcurrentAccess_launch N map0 :
  testConcurrentAccess N map0 = launch (test_calls N) map0.
Proof.
  unfold testConcurrentAccess, launch, spawn, test_calls. f_equal.
  by rewrite <- list_fmap_compose.
Qed.

(** The book all the calls leave, made one after the other. *)
Lemma joined_book_serial calls map0 sched st :
  run_schedule sched (launch calls map0) = Some st →
  all_joined st = true →
  map_ st = run (in_sequence calls) map0.
Proof.
  intros Hrun Hall.
  pose proof (serial_run _ _ _ _ _ (launch_invariant calls map0) Hrun)
    as [_ Hidle _ Hcalls].
  unfold all_joined in Hall.
  destruct (all_finished_sums _ Hall) as (_ & _ & HM).
  rewrite (Hidle HM), (merged_calls_finished _ Hall). by rewrite Hcalls.
Qed.

(** Inserts at one pair into a symbol that holds that pair only. *)
Lemma run_single_level s p ops : ∀ b c,
  b !! s = Some {[p := c]} →
  Forall (λ x, targets s p x = true) ops →
  run ops b !! s
  = Some {[p := fold_left (λ c x, match x with
                                  | Insert _ o => fetch_add c (lotSize o)
                                  | Remove _ => c
                                  end) ops c]}.
Proof.
  induction ops as [|x ops IH]; intros b c Hb Hops; [done|].
  apply Forall_cons in Hops as [Hx Hops]. rewrite run_cons. cbn [fold_left].
  destruct x as [s' o|s']; [|done]. simpl in Hx.
  apply andb_prop in Hx as [Hs Hp].
  apply bool_decide_eq_true_1 in Hs as ->.
  apply bool_decide_eq_true_1 in Hp.
  apply IH; [|done]. cbn [exec]. rewrite insert_lookup, Hb. simpl.
  erewrite merge_order_Some by (rewrite Hp; apply lookup_singleton_eq).
  by rewrite Hp, insert_singleton_eq.
Qed.

Lemma fold_fetch_add ops : ∀ c s p,
  Forall (λ x, targets s p x = true) ops → is_int (lotSize c) →
  lotSize (fold_left (λ c x, match x with
                             | Insert _ o => fetch_add c (lotSize o)
                             | Remove _ => c
                             end) ops c)
  = wrap_int (lotSize c + sum_at s p ops).
Proof.
  induction ops as [|x ops IH]; intros c s p Hops Hint.
  - simpl. by rewrite Z.add_0_r, wrap_int_id.
  - apply Forall_cons in Hops as [Hx Hops]. cbn [fold_left].
    destruct x as [s' o|s']; [|done].
    rewrite (IH _ s p Hops) by apply wrap_int_is_int.
    cbn [sum_at]. rewrite Hx. cbn [fetch_add lotSize].
    by rewrite wrap_int_add_l, Z.add_assoc.
Qed.

Lemma test_calls_target N :
  Forall (λ x, targets symbol level x = true) (in_sequence (test_calls N)).
Proof.
  unfold in_sequence, test_calls. rewrite <- list_fmap_compose.
  apply Forall_fmap, Forall_true. intros i. simpl.
  by rewrite ?bool_decide_eq_true_2.
Qed.

Lemma test_calls_sum N :
  sum_at symbol level (in_sequence (test_calls N)) = triangular (Z.of_nat N).
Proof.
  rewrite <- spawn_total. unfold in_sequence, test_calls, spawn.
  rewrite <- list_fmap_compose.
  induction (seq 0 N) as [|i l IH]; [done|].
  rewrite !fmap_cons, tsum_cons. cbn [sum_at]. rewrite IH.
  simpl. by rewrite ?bool_decide_eq_true_2.
Qed.

Lemma triangular_is_int N :
  Z.of_nat N * (Z.of_nat N + 1) ≤ INT_MAX → is_int (triangular (Z.of_nat N)).
Proof.
  intros Hmax. unfold triangular, is_int, INT_MIN.
  pose proof (Z.div_pos (Z.of_nat N * (Z.of_nat N + 1)) 2 ltac:(nia) ltac:(lia)).
  pose proof (Z.div_le_upper_bound (Z.of_nat N * (Z.of_nat N + 1)) 2
                (Z.of_nat N * (Z.of_nat N + 1)) ltac:(lia) ltac:(nia)).
  lia.
Qed.

(** X15.  The checks of [testConcurrentAccess] pass for every
    interleaving of its threads, when the book did not hold the test
    symbol before, there is at least one thread, and
    [numThreads * (numThreads + 1)] is an [int]. *)
Theorem testConcurrentAccess_passes N map0 sched st :
  (1 ≤ N)%nat →
  Z.of_nat N * (Z.of_nat N + 1) ≤ INT_MAX →
  map0 !! symbol = None →
  run_schedule sched (testConcurrentAccess N map0) = Some st →
  all_joined st = true →
  check_joined N (map_ st) = Passed tt.
Proof.
  intros Hpos Hmax Hfresh Hrun Hall.
  pose proof (triangular_is_int N Hmax) as Hint.
  destruct (testConcurrentAccess_joined N map0) as [_ Hbook];
    [lia|unfold INT_MAX in *; nia|done|].
  rewrite (Hbook sched st Hrun Hall), wrap_int_id by done.
  unfold check_joined.
  rewrite (at_lookup _ _ _ (lookup_insert_eq _ _ _)). cbn [mbind outcome_bind].
  rewrite map_size_singleton, bool_decide_eq_true_2 by done.
  cbn [assert mbind outcome_bind].
  rewrite (at_lookup _ _ _ (lookup_singleton_eq _ _)). cbn [mbind outcome_bind].
  by rewrite bool_decide_eq_true_2.
Qed.

(** X16.  [testConcurrentAccess] cannot be run on a book that already
    holds a quantity other than 0 at the test pair, such as the book an
    earlier run has left: whatever the interleaving, the threads add to
    that quantity and the last [assert] fails. *)
Theorem testConcurrentAccess_fails_on_used_book N map0 c sched st :
  Z.of_nat N * (Z.of_nat N + 1) ≤ INT_MAX →
  map0 !! symbol = Some {[level := c]} →
  is_int (lotSize c) → lotSize c ≠ 0 →
  run_schedule sched (testConcurrentAccess N map0) = Some st →
  all_joined st = true →
  check_joined N (map_ st) = AssertionFailed.
Proof.
  intros Hmax Hused Hint Hne Hrun Hall.
  rewrite testConcurrentAccess_launch in Hrun.
  pose proof (joined_book_serial _ _ _ _ Hrun Hall) as Hbook.
  pose proof (run_single_level symbol level _ map0 c Hused (test_calls_target N))
    as Hs.
  pose proof (fold_fetch_add _ c symbol level (test_calls_target N) Hint) as Hq.
  rewrite test_calls_sum in Hq.
  unfold check_joined. rewrite Hbook, (at_lookup _ _ _ Hs).
  cbn [mbind outcome_bind].
  rewrite map_size_singleton, bool_decide_eq_true_2 by done.
  cbn [assert mbind outcome_bind].
  rewrite (at_lookup _ _ _ (lookup_singleton_eq _ _)). cbn [mbind outcome_bind].
  rewrite Hq, bool_decide_eq_false_2; [done|].
  apply wrap_int_add_ne; [done| |done]. by apply triangular_is_int.
Qed.

End concurrent_checks.

(** ** Instances of the further properties *)

Section further_instances.

Ltac ints := unfold well_typed, is_int, INT_MIN, INT_MAX; simpl; lia.

(** Three inserts of [main], in two orders. *)
Lemma run_inserts_permutation_witness :
  let ops1 := [Insert "NESTLEIND" (mkOrder 10 2); Insert "HDFCBANK" (mkOrder 10 2);
               Insert "NESTLEIND" (mkOrder 20 2)] in
  let ops2 := [Insert "NESTLEIND" (mkOrder 20 2); Insert "NESTLEIND" (mkOrder 10 2);
               Insert "HDFCBANK" (mkOrder 10 2)] in
  forallb is_insert ops1 = true
  ∧ ops1 ≡ₚ ops2
  ∧ run ops1 ∅ = run ops2 ∅.
Proof.
  intros ops1 ops2.
  assert (forallb is_insert ops1 = true) as H1 by reflexivity.
  assert (ops1 ≡ₚ ops2) as H2.
  { unfold ops1, ops2. etrans; [apply perm_skip, perm_swap|]. apply perm_swap. }
  repeat (split; [assumption|]).
  exact (run_inserts_permutation ops1 ops2 ∅ H1 H2).
Defined.

(** 10 and 20 at price 2, as in [testInsert]. *)
Lemma insert_twice_merges_witness :
  is_int (10 + 20)
  ∧ insert "TEST" (mkOrder 20 2) (insert "TEST" (mkOrder 10 2) ∅)
    = insert "TEST" (mkOrder (10 + 20) 2) ∅.
Proof.
  assert (is_int (10 + 20)) as H1 by ints.
  split; [assumption|].
  exact (insert_twice_merges ∅ "TEST" 2 10 20 H1).
Defined.

(** A cell of "TEST" survives a [remove] of another symbol and a merge. *)
Lemma cells_persist_witness :
  let b := insert "TEST" (mkOrder 10 2) ∅ in
  let ops := [Remove "OTHER"; Insert "TEST" (mkOrder 20 2)] in
  cell b "TEST" 2 = Some (mkOrder 10 2)
  ∧ Forall (λ x, x ≠ Remove "TEST") ops
  ∧ ∃ c', cell (run ops b) "TEST" 2 = Some c' ∧ price c' = 2.
Proof.
  intros b ops.
  assert (cell b "TEST" 2 = Some (mkOrder 10 2)) as H1 by reflexivity.
  assert (Forall (λ x, x ≠ Remove "TEST") ops) as H2
    by (repeat constructor; discriminate).
  repeat (split; [assumption|]).
  exact (cells_persist ops "TEST" 2 b (mkOrder 10 2) H1 H2).
Defined.

(** Removing the one symbol of a book leaves nothing to print. *)
Lemma display_remove_witness :
  let b := insert "TEST" (mkOrder 10 2) ∅ in
  b !! "TEST" = Some {[2 := mkOrder 10 2]}
  ∧ display b ≡ₚ ("TEST", display_line {[2 := mkOrder 10 2]})
                 :: display (remove "TEST" b).
Proof.
  intros b.
  assert (b !! "TEST" = Some {[2 := mkOrder 10 2]}) as H1 by reflexivity.
  split; [assumption|].
  exact (display_remove b "TEST" _ H1).
Defined.

(** The first insert of [main]. *)
Lemma display_insert_new_symbol_witness :
  (∅ : book) !! "NESTLEIND" = None
  ∧ display (insert "NESTLEIND" (mkOrder 10 2) ∅)
    ≡ₚ ("NESTLEIND", [(10, 2)]) :: display ∅.
Proof.
  assert ((∅ : book) !! "NESTLEIND" = None) as H1 by reflexivity.
  split; [assumption|].
  exact (display_insert_new_symbol ∅ "NESTLEIND" (mkOrder 10 2) H1).
Defined.

(** [testInsert] on the empty book, then once more. *)
Lemma testInsert_not_rerunnable_witness :
  testInsert ∅ = Passed (after_testInsert 2 ∅)
  ∧ testInsert (after_testInsert 2 ∅) = AssertionFailed.
Proof.
  assert (testInsert ∅ = Passed (after_testInsert 2 ∅)) as H1 by reflexivity.
  split; [assumption|].
  exact (proj1 (testInsert_not_rerunnable ∅ _ H1)).
Defined.

(** Two threads on two symbols; the first has taken the lock and indexed
    its symbol. *)
Lemma mutual_exclusion_witness :
  ∃ st,
    run_schedule [0; 0]%nat
      (launch [("A", mkOrder 1 2); ("B", mkOrder 5 3)] ∅) = Some st
    ∧ (mutex_ st = true ↔ ∃ i t, threads st !! i = Some t ∧ holding t = 1).
Proof.
  eexists. split; [vm_compute; reflexivity|].
  refine (proj2 (mutual_exclusion [("A", mkOrder 1 2); ("B", mkOrder 5 3)] ∅
                   [0; 0]%nat _ _)).
  vm_compute. reflexivity.
Defined.

(** The same two threads, stopped after two steps, can be completed. *)
Lemma interleavings_complete_witness :
  ∃ st,
    run_schedule [0; 0]%nat
      (launch [("A", mkOrder 1 2); ("B", mkOrder 5 3)] ∅) = Some st
    ∧ ∃ sched' st',
        run_schedule ([0; 0]%nat ++ sched')
          (launch [("A", mkOrder 1 2); ("B", mkOrder 5 3)] ∅) = Some st'
        ∧ all_joined st' = true.
Proof.
  eexists. split; [vm_compute; reflexivity|].
  refine (proj1 (interleavings_complete [("A", mkOrder 1 2); ("B", mkOrder 5 3)] ∅
                   [0; 0]%nat _ _)).
  vm_compute. reflexivity.
Defined.

(** The second thread runs first; the book is that of the calls in the
    order of the threads. *)
Lemma interleavings_serial_witness :
  ∃ st,
    run_schedule [1; 1; 1; 1; 0; 0; 0; 0]%nat
      (launch [("A", mkOrder 1 2); ("A", mkOrder 5 2)] ∅) = Some st
    ∧ all_joined st = true
    ∧ map_ st = run [Insert "A" (mkOrder 1 2); Insert "A" (mkOrder 5 2)] ∅.
Proof.
  eexists. split; [vm_compute; reflexivity|]. split; [reflexivity|].
  refine (proj2 (interleavings_serial [("A", mkOrder 1 2); ("A", mkOrder 5 2)] ∅
                   [1; 1; 1; 1; 0; 0; 0; 0]%nat _ _) _).
  - vm_compute. reflexivity.
  - reflexivity.
Defined.

(** Two threads, interleaved at the lock. *)
Lemma testConcurrentAccess_passes_witness :
  ∃ st,
    (1 ≤ 2)%nat
    ∧ Z.of_nat 2 * (Z.of_nat 2 + 1) ≤ INT_MAX
    ∧ (∅ : book) !! symbol = None
    ∧ run_schedule [1; 1; 1; 1; 0; 0; 0; 0]%nat (testConcurrentAccess 2 ∅) = Some st
    ∧ all_joined st = true
    ∧ check_joined 2 (map_ st) = Passed tt.
Proof.
  eexists.
  assert ((1 ≤ 2)%nat) as H1 by lia.
  assert (Z.of_nat 2 * (Z.of_nat 2 + 1) ≤ INT_MAX) as H2 by (vm_compute; discriminate).
  assert ((∅ : book) !! symbol = None) as H3 by reflexivity.
  repeat (split; [assumption|]).
  split; [vm_compute; reflexivity|]. split; [reflexivity|].
  refine (testConcurrentAccess_passes 2 ∅ [1; 1; 1; 1; 0; 0; 0; 0]%nat _ H1 H2 H3 _ _).
  - vm_compute. reflexivity.
  - reflexivity.
Defined.

(** The test pair already holds 3, the sum of an earlier run of two
    threads. *)
Lemma testConcurrentAccess_fails_on_used_book_witness :
  ∃ st,
    Z.of_nat 2 * (Z.of_nat 2 + 1) ≤ INT_MAX
    ∧ ({[symbol := {[level := mkOrder 3 level]}]} : book) !! symbol
      = Some {[level := mkOrder 3 level]}
    ∧ is_int (lotSize (mkOrder 3 level))
    ∧ lotSize (mkOrder 3 level) ≠ 0
    ∧ run_schedule [0; 0; 0; 0; 1; 1; 1; 1]%nat
        (testConcurrentAccess 2 {[symbol := {[level := mkOrder 3 level]}]}) = Some st
    ∧ all_joined st = true
    ∧ check_joined 2 (map_ st) = AssertionFailed.
Proof.
  eexists.
  assert (Z.of_nat 2 * (Z.of_nat 2 + 1) ≤ INT_MAX) as H1 by (vm_compute; discriminate).
  assert (({[symbol := {[level := mkOrder 3 level]}]} : book) !! symbol
          = Some {[level := mkOrder 3 level]}) as H2 by reflexivity.
  assert (is_int (lotSize (mkOrder 3 level))) as H3 by ints.
  assert (lotSize (mkOrder 3 level) ≠ 0) as H4 by discriminate.
  repeat (split; [assumption|]).
  split; [vm_compute; reflexivity|]. split; [reflexivity|].
  refine (testConcurrentAccess_fails_on_used_book 2 _ (mkOrder 3 level)
            [0; 0; 0; 0; 1; 1; 1; 1]%nat _ H1 H2 H3 H4 _ _).
  - vm_compute. reflexivity.
  - reflexivity.
Defined.

End further_instances.

(** ** Interleavings of inserting, removing and displaying workers *)

Import Workers.

Section worker_sums.

Implicit Types (f g : worker → Z) (ws : list worker) (w : worker).

Lemma wsum_cons f w ws : wsum f (w :: ws) = f w + wsum f ws.
Proof. done. Qed.

Lemma wsum_insert f ws : ∀ i w w',
  ws !! i = Some w → wsum f (<[i := w']> ws) = wsum f ws - f w + f w'.
Proof.
  induction ws as [|w0 ws IH]; intros i w w' Hi; [done|].
  destruct i as [|i]; simpl in *.
  - injection Hi as ->. lia.
  - rewrite (IH i w w' Hi). lia.
Qed.

Lemma wsum_nonneg f ws : (∀ w, 0 ≤ f w) → 0 ≤ wsum f ws.
Proof.
  intros Hf. induction ws as [|w ws IH]; simpl; [lia|].
  specialize (Hf w). lia.
Qed.

Lemma wsum_lookup_le f ws i w :
  (∀ w, 0 ≤ f w) → ws !! i = Some w → f w ≤ wsum f ws.
Proof.
  intros Hf. revert i. induction ws as [|w0 ws IH]; intros i Hi; [done|].
  destruct i as [|i]; simpl in *.
  - injection Hi as ->. pose proof (wsum_nonneg f ws Hf). lia.
  - specialize (IH i Hi). specialize (Hf w0). lia.
Qed.

Lemma wsum_two f ws : ∀ i j wi wj,
  (∀ w, 0 ≤ f w) → i ≠ j → ws !! i = Some wi → ws !! j = Some wj →
  f wi + f wj ≤ wsum f ws.
Proof.
  induction ws as [|w0 ws IH]; intros i j wi wj Hf Hne Hi Hj; [done|].
  rewrite wsum_cons. destruct i as [|i], j as [|j]; simpl in Hi, Hj.
  - done.
  - injection Hi as ->. pose proof (wsum_lookup_le f ws j wj Hf Hj). lia.
  - injection Hj as ->. pose proof (wsum_lookup_le f ws i wi Hf Hi). lia.
  - pose proof (IH i j wi wj Hf ltac:(congruence) Hi Hj). specialize (Hf w0). lia.
Qed.

Lemma wsum_pos_lookup f ws :
  (∀ w, 0 ≤ f w) → 0 < wsum f ws → ∃ i w, ws !! i = Some w ∧ 0 < f w.
Proof.
  intros Hf. induction ws as [|w0 ws IH]; simpl; [lia|]. intros Hpos.
  destruct (decide (0 < f w0)) as [Hlt|Hge].
  - by exists 0%nat, w0.
  - destruct IH as (i & w & Hi & Hw); [specialize (Hf w0); lia|].
    by exists (S i), w.
Qed.

Lemma wsum_zero f ws : Forall (λ w, f w = 0) ws → wsum f ws = 0.
Proof.
  induction 1 as [|w ws Hw _ IH]; [done|]. rewrite wsum_cons, Hw, IH. done.
Qed.

Lemma writing_cases w : writing w = 0 ∨ writing w = 1.
Proof. unfold writing. destruct (w_pc w), (w_call w); auto. Qed.

Lemma reading_cases w : reading w = 0 ∨ reading w = 1.
Proof. unfold reading. destruct (w_pc w), (w_call w); auto. Qed.

Lemma writing_nonneg w : 0 ≤ writing w.
Proof. destruct (writing_cases w); lia. Qed.

Lemma reading_nonneg w : 0 ≤ reading w.
Proof. destruct (reading_cases w); lia. Qed.

Lemma halfway_nonneg w : 0 ≤ halfway w.
Proof. unfold halfway. destruct (w_pc w), (w_call w); lia. Qed.

(** A worker that holds the lock exclusively without being halfway leaves
    no room for another that is halfway. *)
Lemma halfway_le_writing ws i w :
  ws !! i = Some w →
  0 ≤ wsum halfway ws ∧ wsum halfway ws + (writing w - halfway w) ≤ wsum writing ws.
Proof.
  intros Hi. split; [apply wsum_nonneg, halfway_nonneg|].
  assert (∀ w, 0 ≤ writing w - halfway w) as Hg.
  { intros w'. unfold writing, halfway. destruct (w_pc w'), (w_call w'); lia. }
  pose proof (wsum_lookup_le (λ w, writing w - halfway w) ws i w Hg Hi) as Hle.
  assert (wsum (λ w, writing w - halfway w) ws
          = wsum writing ws - wsum halfway ws) as Hsub.
  { clear. induction ws as [|w ws IH]; [done|]. rewrite !wsum_cons, IH. lia. }
  simpl in Hle. lia.
Qed.

Lemma halfway_sum_le ws : wsum halfway ws ≤ wsum writing ws.
Proof.
  induction ws as [|w ws IH]; [done|]. rewrite !wsum_cons.
  assert (halfway w ≤ writing w)
    by (unfold halfway, writing; destruct (w_pc w), (w_call w); lia).
  lia.
Qed.

Lemma done_writes_cons w ws :
  done_writes (w :: ws) = option_list (commit_of w) ++ done_writes ws.
Proof. unfold done_writes. simpl. by destruct (commit_of w). Qed.

Lemma done_writes_insert_same ws : ∀ i w w',
  ws !! i = Some w → commit_of w' = commit_of w →
  done_writes (<[i := w']> ws) = done_writes ws.
Proof.
  induction ws as [|w0 ws IH]; intros i w w' Hi Hc; [done|].
  destruct i as [|i]; simpl in Hi; cbn [base.insert list_insert].
  - injection Hi as ->. by rewrite !done_writes_cons, Hc.
  - rewrite !done_writes_cons. f_equal. by apply (IH i w).
Qed.

Lemma done_writes_insert_new ws : ∀ i w w' x,
  ws !! i = Some w → commit_of w = None → commit_of w' = Some x →
  done_writes (<[i := w']> ws) ≡ₚ done_writes ws ++ [x].
Proof.
  induction ws as [|w0 ws IH]; intros i w w' x Hi Hc Hc'; [done|].
  destruct i as [|i]; simpl in Hi; cbn [base.insert list_insert].
  - injection Hi as ->. rewrite !done_writes_cons, Hc, Hc'. simpl.
    by rewrite Permutation_cons_append.
  - rewrite !done_writes_cons, (IH i w w' x Hi Hc Hc'). by rewrite app_assoc.
Qed.

End worker_sums.

Section linear.

Variable map0 : book.

Implicit Types (ws : list worker) (w : worker) (st : state) (log : list op).

Lemma shown_prefix log log' now w :
  shown map0 log now w → log `prefix_of` log' → shown map0 log' now w.
Proof.
  unfold shown. destruct (w_pc w); try done.
  - intros (pre & Hp & Ho) Hl. exists pre. split; [by etrans|done].
  - intros (pre & Hp & Ho) Hl. exists pre. split; [by etrans|done].
Qed.

Lemma shown_other_book log now now' w :
  (∀ k, w_pc w ≠ Printing k) → shown map0 log now w → shown map0 log now' w.
Proof.
  unfold shown. destruct (w_pc w) as [| | | |k| |]; try done.
  intros H. by destruct (H k).
Qed.

Ltac freeze st :=
  set (sum_writing := wsum writing (workers st)) in *;
  set (sum_reading := wsum reading (workers st)) in *;
  set (sum_halfway := wsum halfway (workers st)) in *.

Ltac wstep Hi :=
  rewrite ?(wsum_insert _ _ _ _ _ Hi);
  repeat match goal with x := wsum _ _ |- _ => progress fold x end;
  cbn [writing reading halfway at_pc w_pc w_call w_out Z.b2z] in *.

(** Every step of every worker keeps the invariant, for the sequence of
    changes extended by the change the step has made, if it made one. *)
Lemma linear_step log i st st' :
  linear_invariant map0 log st → step_worker i st = Some st' →
  ∃ log', log `prefix_of` log' ∧ linear_invariant map0 log' st'.
Proof.
  intros [Hcons Hex Hsh Heither Hlog Hidle Hhalf Hshown] Hstep.
  unfold step_worker in Hstep.
  destruct (workers st !! i) as [w|] eqn:Hi; [|done].
  pose proof (wsum_lookup_le writing _ _ _ writing_nonneg Hi) as Hw.
  pose proof (wsum_lookup_le reading _ _ _ reading_nonneg Hi) as Hr.
  pose proof (halfway_le_writing _ _ _ Hi) as [Hh0 Hhw].
  assert (0 ≤ Z.b2z (exclusive (mutex_ st)) ≤ 1) as Hb01
    by (destruct (exclusive (mutex_ st)); simpl; lia).
  assert (∀ j wj, j ≠ i → workers st !! j = Some wj →
                  writing w = 1 → writing wj = 1 → False) as Halone.
  { intros j wj Hne Hj Hwi Hwj.
    pose proof (wsum_two writing _ j i wj w writing_nonneg Hne Hj Hi). lia. }
  assert (∀ j wj, workers st !! j = Some wj → reading wj = 1 →
                  exclusive (mutex_ st) = true → False) as Hnoread.
  { intros j wj Hj Hrj Hx.
    pose proof (wsum_lookup_le reading _ _ _ reading_nonneg Hj).
    rewrite (Heither Hx) in Hsh. lia. }
  assert (∀ w', consistent w' → Forall consistent (<[i := w']> (workers st)))
    as Hcons' by (intros w' Hw'; by apply Forall_insert).
  assert (∀ j wj w', <[i := w']> (workers st) !! j = Some wj →
                     j = i ∧ wj = w' ∨ j ≠ i ∧ workers st !! j = Some wj) as Hsplit.
  { intros j wj w' Hj.
    apply list_lookup_insert_Some in Hj as [(-> & <- & _)|(Hne & Hj)]; auto. }
  pose proof (Hshown i w Hi) as Hmine.
  destruct w as [l c out]. cbn [w_pc w_call w_out] in Hstep.
  freeze st.
  destruct l as [| | | |k| |], c as [s o|s|];
    cbn [writing reading halfway w_pc w_call] in Hw, Hr, Hhw, Halone, Hmine;
    try discriminate Hstep.
  - (* insert takes the lock *)
    destruct (free (mutex_ st)) eqn:Hfree; [|done]. injection Hstep as <-.
    apply andb_prop in Hfree as [Hx%negb_true_iff Hs%bool_decide_eq_true_1].
    rewrite Hx in Hex. exists log. split; [done|].
    split; cbn [map_ mutex_ workers exclusive shared].
    + apply Hcons'. unfold consistent. cbn. auto.
    + wstep Hi. lia.
    + wstep Hi. lia.
    + done.
    + by rewrite (done_writes_insert_same _ _ _ _ Hi).
    + wstep Hi. intros HM. apply Hidle. lia.
    + intros j wj s' o' Hj Hpc Hc.
      destruct (Hsplit _ _ _ Hj) as [[-> ->]|[Hne Hj']]; [done|eauto].
    + intros j wj Hj Hc.
      destruct (Hsplit _ _ _ Hj) as [[-> ->]|[Hne Hj']]; [done|eauto].
  - (* remove takes the lock *)
    destruct (free (mutex_ st)) eqn:Hfree; [|done]. injection Hstep as <-.
    apply andb_prop in Hfree as [Hx%negb_true_iff Hs%bool_decide_eq_true_1].
    rewrite Hx in Hex. exists log. split; [done|].
    split; cbn [map_ mutex_ workers exclusive shared].
    + apply Hcons'. unfold consistent. cbn. auto.
    + wstep Hi. lia.
    + wstep Hi. lia.
    + done.
    + by rewrite (done_writes_insert_same _ _ _ _ Hi).
    + wstep Hi. intros HM. apply Hidle. lia.
    + intros j wj s' o' Hj Hpc Hc.
      destruct (Hsplit _ _ _ Hj) as [[-> ->]|[Hne Hj']]; [done|eauto].
    + intros j wj Hj Hc.
      destruct (Hsplit _ _ _ Hj) as [[-> ->]|[Hne Hj']]; [done|eauto].
  - (* display takes the lock, shared *)
    destruct (exclusive (mutex_ st)) eqn:Hx; [done|]. injection Hstep as <-.
    exists log. split; [done|].
    split; cbn [map_ mutex_ workers exclusive shared].
    + apply Hcons'. unfold consistent. cbn. auto.
    + wstep Hi. lia.
    + wstep Hi. lia.
    + done.
    + by rewrite (done_writes_insert_same _ _ _ _ Hi).
    + wstep Hi. intros HM. apply Hidle. lia.
    + intros j wj s' o' Hj Hpc Hc.
      destruct (Hsplit _ _ _ Hj) as [[-> ->]|[Hne Hj']]; [done|eauto].
    + intros j wj Hj Hc.
      destruct (Hsplit _ _ _ Hj) as [[-> ->]|[Hne Hj']]; [|eauto].
      unfold shown in *. cbn [w_pc w_out at_pc] in *. by rewrite Hmine.
  - (* insert: map_[symbol] *)
    injection Hstep as <-.
    assert (exclusive (mutex_ st) = true) as Hx
      by (destruct (exclusive (mutex_ st)); [done|simpl in Hex; lia]).
    exists log. split; [done|].
    split; cbn [map_ mutex_ workers exclusive shared].
    + apply Hcons'. unfold consistent. cbn. auto.
    + wstep Hi. lia.
    + wstep Hi. lia.
    + done.
    + by rewrite (done_writes_insert_same _ _ _ _ Hi).
    + wstep Hi. intros HM. lia.
    + intros j wj s' o' Hj Hpc Hc.
      destruct (Hsplit _ _ _ Hj) as [[-> ->]|[Hne Hj']].
      * cbn in Hc. injection Hc as <- <-. f_equal. apply Hidle. lia.
      * exfalso. apply (Halone j wj Hne Hj'); [done|].
        unfold writing. by rewrite Hpc, Hc.
    + intros j wj Hj Hc.
      destruct (Hsplit _ _ _ Hj) as [[-> ->]|[Hne Hj']]; [done|].
      apply (shown_other_book log (map_ st)); [|eauto].
      intros k Hk. apply (Hnoread j wj Hj'); [|done].
      unfold reading. by rewrite Hk, Hc.
  - (* insert: find, then merge or create *)
    injection Hstep as <-.
    assert (exclusive (mutex_ st) = true) as Hx
      by (destruct (exclusive (mutex_ st)); [done|simpl in Hex; lia]).
    exists (log ++ [Insert s o]). split; [by apply prefix_app_r|].
    split; cbn [map_ mutex_ workers exclusive shared].
    + apply Hcons'. unfold consistent. cbn. auto.
    + wstep Hi. lia.
    + wstep Hi. lia.
    + done.
    + rewrite (done_writes_insert_new _ _ _ _ (Insert s o) Hi) by done.
      by rewrite Hlog.
    + intros _. rewrite run_snoc. cbn [exec]. unfold insert. f_equal.
      by apply (Hhalf i _ s o Hi).
    + intros j wj s' o' Hj Hpc Hc.
      destruct (Hsplit _ _ _ Hj) as [[-> ->]|[Hne Hj']]; [done|].
      exfalso. apply (Halone j wj Hne Hj'); [done|].
      unfold writing. by rewrite Hpc, Hc.
    + intros j wj Hj Hc.
      destruct (Hsplit _ _ _ Hj) as [[-> ->]|[Hne Hj']]; [done|].
      apply (shown_prefix log); [|by apply prefix_app_r].
      apply (shown_other_book log (map_ st)); [|eauto].
      intros k Hk. apply (Hnoread j wj Hj'); [|done].
      unfold reading. by rewrite Hk, Hc.
  - (* remove: erase *)
    injection Hstep as <-.
    assert (exclusive (mutex_ st) = true) as Hx
      by (destruct (exclusive (mutex_ st)); [done|simpl in Hex; lia]).
    exists (log ++ [Remove s]). split; [by apply prefix_app_r|].
    split; cbn [map_ mutex_ workers exclusive shared].
    + apply Hcons'. unfold consistent. cbn. auto.
    + wstep Hi. lia.
    + wstep Hi. lia.
    + done.
    + rewrite (done_writes_insert_new _ _ _ _ (Remove s) Hi) by done.
      by rewrite Hlog.
    + intros _. rewrite run_snoc. cbn [exec]. f_equal. apply Hidle. lia.
    + intros j wj s' o' Hj Hpc Hc.
      destruct (Hsplit _ _ _ Hj) as [[-> ->]|[Hne Hj']]; [done|].
      exfalso. apply (Halone j wj Hne Hj'); [done|].
      unfold writing. by rewrite Hpc, Hc.
    + intros j wj Hj Hc.
      destruct (Hsplit _ _ _ Hj) as [[-> ->]|[Hne Hj']]; [done|].
      apply (shown_prefix log); [|by apply prefix_app_r].
      apply (shown_other_book log (map_ st)); [|eauto].
      intros k Hk. apply (Hnoread j wj Hj'); [|done].
      unfold reading. by rewrite Hk, Hc.
  - (* display: one more line, or the end of the loop *)
    specialize (Hmine eq_refl). unfold shown in Hmine. cbn [w_pc w_out] in Hmine.
    assert (exclusive (mutex_ st) = false) as Hx.
    { destruct (exclusive (mutex_ st)) eqn:Hx; [|done].
      exfalso. by apply (Hnoread i _ Hi). }
    rewrite Hx in Hex. simpl in Hex.
    destruct (display (map_ st) !! k) as [line|] eqn:Hk; injection Hstep as <-;
      (exists log; split; [done|]);
      split; cbn [map_ mutex_ workers exclusive shared].
    + apply Hcons'. unfold consistent. cbn. auto.
    + rewrite Hx. wstep Hi. lia.
    + wstep Hi. lia.
    + by rewrite Hx.
    + by rewrite (done_writes_insert_same _ _ _ _ Hi).
    + wstep Hi. intros HM. apply Hidle. lia.
    + intros j wj s' o' Hj Hpc Hc.
      destruct (Hsplit _ _ _ Hj) as [[-> ->]|[Hne Hj']]; [done|eauto].
    + intros j wj Hj Hc.
      destruct (Hsplit _ _ _ Hj) as [[-> ->]|[Hne Hj']]; [|eauto].
      unfold shown. cbn [w_pc w_out].
      by rewrite (take_S_r _ _ _ Hk), Hmine.
    + apply Hcons'. unfold consistent. cbn. auto.
    + rewrite Hx. wstep Hi. lia.
    + wstep Hi. lia.
    + by rewrite Hx.
    + by rewrite (done_writes_insert_same _ _ _ _ Hi).
    + wstep Hi. intros HM. apply Hidle. lia.
    + intros j wj s' o' Hj Hpc Hc.
      destruct (Hsplit _ _ _ Hj) as [[-> ->]|[Hne Hj']]; [done|eauto].
    + intros j wj Hj Hc.
      destruct (Hsplit _ _ _ Hj) as [[-> ->]|[Hne Hj']]; [|eauto].
      unfold shown. cbn [w_pc w_out at_pc]. exists log. split; [done|].
      rewrite Hmine, <- Hidle by lia.
      apply take_ge. by apply lookup_ge_None.
  - (* insert releases the lock *)
    injection Hstep as <-. exists log. split; [done|].
    split; cbn [map_ mutex_ workers exclusive shared].
    + apply Hcons'. unfold consistent. cbn. auto.
    + wstep Hi. lia.
    + wstep Hi. lia.
    + done.
    + by rewrite (done_writes_insert_same _ _ _ _ Hi).
    + wstep Hi. intros HM. apply Hidle. lia.
    + intros j wj s' o' Hj Hpc Hc.
      destruct (Hsplit _ _ _ Hj) as [[-> ->]|[Hne Hj']]; [done|eauto].
    + intros j wj Hj Hc.
      destruct (Hsplit _ _ _ Hj) as [[-> ->]|[Hne Hj']]; [done|eauto].
  - (* remove releases the lock *)
    injection Hstep as <-. exists log. split; [done|].
    split; cbn [map_ mutex_ workers exclusive shared].
    + apply Hcons'. unfold consistent. cbn. auto.
    + wstep Hi. lia.
    + wstep Hi. lia.
    + done.
    + by rewrite (done_writes_insert_same _ _ _ _ Hi).
    + wstep Hi. intros HM. apply Hidle. lia.
    + intros j wj s' o' Hj Hpc Hc.
      destruct (Hsplit _ _ _ Hj) as [[-> ->]|[Hne Hj']]; [done|eauto].
    + intros j wj Hj Hc.
      destruct (Hsplit _ _ _ Hj) as [[-> ->]|[Hne Hj']]; [done|eauto].
  - (* display releases the lock *)
    injection Hstep as <-. exists log. split; [done|].
    split; cbn [map_ mutex_ workers exclusive shared].
    + apply Hcons'. unfold consistent. cbn. auto.
    + wstep Hi. lia.
    + wstep Hi. lia.
    + intros Hx. by rewrite (Heither Hx).
    + by rewrite (done_writes_insert_same _ _ _ _ Hi).
    + wstep Hi. intros HM. apply Hidle. lia.
    + intros j wj s' o' Hj Hpc Hc.
      destruct (Hsplit _ _ _ Hj) as [[-> ->]|[Hne Hj']]; [done|eauto].
    + intros j wj Hj Hc.
      destruct (Hsplit _ _ _ Hj) as [[-> ->]|[Hne Hj']]; [|eauto].
      by apply Hmine.
Qed.

Lemma linear_run sched : ∀ log st st',
  linear_invariant map0 log st → run_workers sched st = Some st' →
  ∃ log', log `prefix_of` log' ∧ linear_invariant map0 log' st'.
Proof.
  induction sched as [|i sched IH]; intros log st st' Hinv; simpl.
  - intros [= <-]. by exists log.
  - destruct (step_worker i st) as [st1|] eqn:Hstep; [|done]. intros Hrun.
    destruct (linear_step log i st st1 Hinv Hstep) as (log1 & Hp1 & Hinv1).
    destruct (IH log1 st1 st' Hinv1 Hrun) as (log' & Hp' & Hinv').
    exists log'. split; [by etrans|done].
Qed.

Lemma start_invariant calls : linear_invariant map0 [] (start calls map0).
Proof.
  assert (Forall (λ w, w_pc w = Waiting ∧ w_out w = [])
            (workers (start calls map0))) as Hws.
  { unfold start. cbn [workers]. by apply Forall_fmap, Forall_true. }
  assert (∀ f, (∀ w, w_pc w = Waiting → f w = 0) →
               wsum f (workers (start calls map0)) = 0) as Hzero.
  { intros f Hf. apply wsum_zero. eapply Forall_impl; [exact Hws|].
    intros w [Hpc _]. by apply Hf. }
  split.
  - eapply Forall_impl; [exact Hws|]. intros w [Hpc _]. by left.
  - apply Hzero. intros w Hpc. unfold writing. by rewrite Hpc.
  - apply Hzero. intros w Hpc. unfold reading. by rewrite Hpc.
  - done.
  - assert (done_writes (workers (start calls map0)) = []) as ->; [|done].
    clear Hzero. induction Hws as [|w ws [Hpc _] _ IH]; [done|].
    rewrite done_writes_cons, IH. unfold commit_of, committed. by rewrite Hpc.
  - done.
  - intros i w s o Hi Hpc.
    pose proof (Forall_lookup_1 _ _ _ _ Hws Hi) as [Hw _]. congruence.
  - intros i w Hi _.
    pose proof (Forall_lookup_1 _ _ _ _ Hws Hi) as [Hpc Hout].
    unfold shown. by rewrite Hpc.
Qed.

(** No step changes the call of a worker. *)
Lemma step_calls i st st' :
  step_worker i st = Some st' → w_call <$> workers st' = w_call <$> workers st.
Proof.
  unfold step_worker. intros Hstep.
  destruct (workers st !! i) as [w|] eqn:Hi; [|done].
  assert (∀ w', w_call w' = w_call w →
                w_call <$> <[i := w']> (workers st) = w_call <$> workers st) as Hsame.
  { intros w' Hw'. rewrite list_fmap_insert, Hw'.
    apply list_insert_id. by rewrite list_lookup_fmap, Hi. }
  destruct w as [l c out]. cbn [w_pc w_call w_out] in *.
  destruct l as [| | | |k| |], c as [s o|s|]; try discriminate Hstep;
    repeat match type of Hstep with
           | context [if ?b then _ else _] => destruct b; [|try discriminate Hstep]
           | context [match ?o with Some _ => _ | None => _ end] => destruct o
           end;
    try discriminate Hstep; injection Hstep as <-; cbn [workers]; by apply Hsame.
Qed.

Lemma run_calls sched : ∀ st st',
  run_workers sched st = Some st' → w_call <$> workers st' = w_call <$> workers st.
Proof.
  induction sched as [|i sched IH]; intros st st'; simpl.
  - by intros [= <-].
  - destruct (step_worker i st) as [st1|] eqn:Hstep; [|done]. intros Hrun.
    by rewrite (IH _ _ Hrun), (step_calls _ _ _ Hstep).
Qed.

Lemma start_calls calls : w_call <$> workers (start calls map0) = calls.
Proof.
  unfold start. cbn [workers]. rewrite <- list_fmap_compose.
  induction calls as [|c calls IH]; [done|]. rewrite fmap_cons. by f_equal.
Qed.

Lemma done_writes_returned ws :
  forallb returned ws = true → done_writes ws = omap op_of (w_call <$> ws).
Proof.
  induction ws as [|w ws IH]; [done|]. cbn [forallb].
  intros [Hw Hws]%andb_prop. rewrite done_writes_cons, (IH Hws), fmap_cons.
  unfold returned in Hw. unfold commit_of, committed. cbn [omap list_omap].
  destruct (w_pc w); try done. by destruct (op_of (w_call w)).
Qed.

Lemma display_lines_nonempty b s line :
  no_placeholder b → (s, line) ∈ display b → line ≠ [].
Proof.
  intros Hb (orders & Hs & ->)%elem_of_display Hnil%display_line_nil.
  by apply (Hb s orders).
Qed.

(** What a worker of [display] has printed so far comes from a book that
    a sequence of whole changes has left. *)
Lemma shown_whole log st i w :
  linear_invariant map0 log st →
  workers st !! i = Some w → w_call w = CallDisplay →
  ∃ pre k, w_out w = take k (display (run pre map0)).
Proof.
  intros [Hcons Hex Hsh Heither _ Hidle _ Hshown] Hi Hc.
  pose proof (Hshown i w Hi Hc) as Hw. unfold shown in Hw.
  pose proof (Forall_lookup_1 _ _ _ _ Hcons Hi) as Hcw.
  pose proof (wsum_lookup_le reading _ _ _ reading_nonneg Hi) as Hr.
  pose proof (wsum_nonneg halfway (workers st) halfway_nonneg) as Hh0.
  destruct (w_pc w) as [| | | |k| |] eqn:Hpc.
  - exists [], 0%nat. by rewrite Hw.
  - destruct Hcw as [?|[?|[Hcw|Hcw]]]; [congruence|congruence| |];
      unfold writing, reading in Hcw; rewrite Hpc in Hcw;
      rewrite ?Hc in Hcw; done.
  - destruct Hcw as [?|[?|[Hcw|Hcw]]]; [congruence|congruence| |];
      unfold writing, reading in Hcw; rewrite Hpc in Hcw;
      rewrite ?Hc in Hcw; done.
  - destruct Hcw as [?|[?|[Hcw|Hcw]]]; [congruence|congruence| |];
      unfold writing, reading in Hcw; rewrite Hpc in Hcw;
      rewrite ?Hc in Hcw; done.
  - exists log, k. rewrite Hw, <- Hidle; [done|].
    assert (reading w = 1) as Hrw by (unfold reading; by rewrite Hpc, Hc).
    assert (exclusive (mutex_ st) = false) as Hx.
    { destruct (exclusive (mutex_ st)) eqn:Hx; [|done].
      rewrite (Heither eq_refl) in Hsh. lia. }
    rewrite Hx in Hex. simpl in Hex.
    pose proof (halfway_le_writing _ _ _ Hi) as [_ Hle].
    pose proof (writing_nonneg w). pose proof (halfway_nonneg w).
    assert (halfway w = 0) by (unfold halfway; by rewrite Hpc).
    lia.
  - destruct Hw as (pre & _ & Hout).
    exists pre, (length (display (run pre map0))). by rewrite firstn_all.
  - destruct Hw as (pre & _ & Hout).
    exists pre, (length (display (run pre map0))). by rewrite firstn_all.
Qed.

Lemma not_all_returned ws :
  forallb returned ws = false → ∃ i w, ws !! i = Some w ∧ returned w = false.
Proof.
  induction ws as [|w ws IH]; simpl; [done|].
  destruct (returned w) eqn:Hw; simpl.
  - intros (i & w' & Hi & Hw')%IH. by exists (S i), w'.
  - intros _. by exists 0%nat, w.
Qed.

(** While a worker has not returned, some worker can move. *)
Lemma worker_progress log st :
  linear_invariant map0 log st → all_returned st = false →
  ∃ i st', step_worker i st = Some st'.
Proof.
  intros [Hcons Hex Hsh Heither _ _ _ _] Hnot.
  destruct (exclusive (mutex_ st)) eqn:Hx; simpl in Hex.
  - destruct (wsum_pos_lookup writing (workers st) writing_nonneg)
      as (i & w & Hi & Hw); [lia|].
    exists i. unfold step_worker. rewrite Hi. unfold writing in Hw.
    destruct (w_pc w), (w_call w); try lia; eauto.
  - destruct (decide (shared (mutex_ st) = 0%nat)) as [Hs|Hs].
    + destruct (not_all_returned _ Hnot) as (i & w & Hi & Hw).
      pose proof (Forall_lookup_1 _ _ _ _ Hcons Hi) as Hcw.
      pose proof (wsum_lookup_le writing _ _ _ writing_nonneg Hi).
      pose proof (wsum_lookup_le reading _ _ _ reading_nonneg Hi).
      exists i. unfold step_worker. rewrite Hi.
      destruct Hcw as [Hpc|[Hpc|[?|?]]]; [| |lia..].
      * rewrite Hpc. unfold free. rewrite Hx, Hs. simpl.
        destruct (w_call w); eauto.
      * unfold returned in Hw. by rewrite Hpc in Hw.
    + destruct (wsum_pos_lookup reading (workers st) reading_nonneg)
        as (i & w & Hi & Hw); [lia|].
      exists i. unfold step_worker. rewrite Hi. unfold reading in Hw.
      destruct (w_pc w), (w_call w); try lia; eauto.
      destruct (display (map_ st) !! k); eauto.
Qed.

(** X17.  Readers and writers.  However the steps of workers calling
    [insert], [remove] and [display] interleave: while a worker is inside
    [insert] or [remove] no other worker is inside any of the three
    (several may be inside [display] together otherwise); the mutex is
    held exclusively exactly when a worker is inside [insert] or
    [remove]; and its count of shared holders is the number of workers
    inside [display]. *)
Theorem readers_writers_exclusion calls sched st :
  run_workers sched (start calls map0) = Some st →
  (∀ i j wi wj,
      i ≠ j → workers st !! i = Some wi → workers st !! j = Some wj →
      writing wi = 1 → writing wj = 0 ∧ reading wj = 0)
  ∧ (exclusive (mutex_ st) = true
     ↔ ∃ i w, workers st !! i = Some w ∧ writing w = 1)
  ∧ wsum reading (workers st) = Z.of_nat (shared (mutex_ st)).
Proof.
  intros Hrun.
  destruct (linear_run _ _ _ _ (start_invariant calls) Hrun)
    as (log & _ & [_ Hex Hsh Heither _ _ _ _]).
  assert (0 ≤ Z.b2z (exclusive (mutex_ st)) ≤ 1) as Hb01
    by (destruct (exclusive (mutex_ st)); simpl; lia).
  split; [|split; [split|done]].
  - intros i j wi wj Hne Hi Hj Hwi.
    pose proof (wsum_two writing _ i j wi wj writing_nonneg Hne Hi Hj).
    pose proof (wsum_lookup_le reading _ _ _ reading_nonneg Hj).
    assert (exclusive (mutex_ st) = true) as Hx.
    { pose proof (wsum_lookup_le writing _ _ _ writing_nonneg Hi).
      destruct (exclusive (mutex_ st)); [done|simpl in Hex; lia]. }
    rewrite (Heither Hx) in Hsh.
    destruct (writing_cases wj), (reading_cases wj); lia.
  - intros Hx. rewrite Hx in Hex. simpl in Hex.
    destruct (wsum_pos_lookup writing (workers st) writing_nonneg)
      as (i & w & Hi & Hw); [lia|].
    exists i, w. split; [done|]. destruct (writing_cases w); lia.
  - intros (i & w & Hi & Hw).
    pose proof (wsum_lookup_le writing _ _ _ writing_nonneg Hi).
    destruct (exclusive (mutex_ st)); [done|simpl in Hex; lia].
Qed.

(** X18.  Linearizability.  Every state the workers can reach has a
    sequence of the changes made so far, each made by one worker whose
    [insert] or [remove] has taken effect, such that: whenever the mutex
    is not held exclusively the book is the one these changes leave when
    made one after the other; every [display] that has returned printed
    all the lines of the book that an initial part of the sequence
    leaves; and once all workers have returned the sequence holds the
    changes of all the calls. *)
Theorem workers_linearizable calls sched st :
  run_workers sched (start calls map0) = Some st →
  ∃ log,
    log ≡ₚ done_writes (workers st)
    ∧ (exclusive (mutex_ st) = false → map_ st = run log map0)
    ∧ (∀ i w, workers st !! i = Some w → w_call w = CallDisplay →
              w_pc w = Returned →
              ∃ pre, pre `prefix_of` log ∧ w_out w = display (run pre map0))
    ∧ (all_returned st = true → log ≡ₚ omap op_of calls).
Proof.
  intros Hrun.
  destruct (linear_run _ _ _ _ (start_invariant calls) Hrun)
    as (log & _ & [_ Hex _ _ Hlog Hidle _ Hshown]).
  exists log. split; [done|]. split; [|split].
  - intros Hx. apply Hidle. rewrite Hx in Hex. simpl in Hex.
    pose proof (wsum_nonneg halfway (workers st) halfway_nonneg).
    assert (wsum halfway (workers st) ≤ wsum writing (workers st)); [|lia].
    clear. induction (workers st) as [|w ws IH]; [done|].
    rewrite !wsum_cons.
    assert (halfway w ≤ writing w)
      by (unfold halfway, writing; destruct (w_pc w), (w_call w); lia).
    lia.
  - intros i w Hi Hc Hpc. pose proof (Hshown i w Hi Hc) as Hw.
    unfold shown in Hw. by rewrite Hpc in Hw.
  - intros Hall. unfold all_returned in Hall.
    rewrite Hlog, (done_writes_returned _ Hall).
    by rewrite (run_calls _ _ _ Hrun), start_calls.
Qed.

(** X19.  [display] never prints a symbol without price levels, although
    [insert] binds a new symbol to an empty inner map before it creates
    the cell: on a book that starts without such a symbol, every line
    that a worker of [display] has printed, at any point of any
    interleaving, lists at least one price. *)
Theorem display_prints_no_empty_line calls sched st i w s line :
  no_placeholder map0 →
  run_workers sched (start calls map0) = Some st →
  workers st !! i = Some w →
  w_call w = CallDisplay →
  (s, line) ∈ w_out w →
  line ≠ [].
Proof.
  intros Hmap0 Hrun Hi Hc Hline.
  destruct (linear_run _ _ _ _ (start_invariant calls) Hrun) as (log & _ & Hinv).
  destruct (shown_whole log st i w Hinv Hi Hc) as (pre & k & Hout).
  rewrite Hout in Hline. apply elem_of_take in Hline as (n & Hn & _).
  apply (display_lines_nonempty (run pre map0) s).
  - by apply no_placeholder_run.
  - by apply list_elem_of_lookup_2 in Hn.
Qed.

End linear.

(** ** Workers always return *)

Section worker_termination.

Variable map0 : book.

Implicit Types (ws : list worker) (w : worker) (st : state) (log : list op).

Lemma unindexed_nonneg w : 0 ≤ unindexed w.
Proof. unfold unindexed. destruct (w_pc w), (w_call w); lia. Qed.

Lemma steps_left_nonneg n u w : 0 ≤ n → 0 ≤ u → 0 ≤ steps_left n u w.
Proof. intros Hn Hu. unfold steps_left. destruct (w_pc w), (w_call w); lia. Qed.

(** The steps left to a worker do not grow when the book does not, or
    when it grows by as much as the unindexed inserts shrink while the
    worker is not printing. *)
Lemma steps_left_mono n u n' u' w :
  n' + u' ≤ n + u → u' ≤ u →
  (n' ≤ n ∨ ∀ k, w_pc w ≠ Printing k) →
  steps_left n' u' w ≤ steps_left n u w.
Proof.
  intros Hsum Hu Hn. unfold steps_left.
  destruct (w_pc w) as [| | | |k| |], (w_call w); try lia;
    destruct Hn as [Hn|Hn]; try lia; by destruct (Hn k).
Qed.

(** The sum over the workers other than [i]. *)
Lemma wsum_others (f g : worker → Z) ws : ∀ i w,
  ws !! i = Some w →
  (∀ j wj, j ≠ i → ws !! j = Some wj → f wj ≤ g wj) →
  wsum f ws - f w ≤ wsum g ws - g w.
Proof.
  induction ws as [|w0 ws IH]; intros i w Hi Hle; [done|].
  rewrite !wsum_cons. destruct i as [|i]; simpl in Hi.
  - injection Hi as ->.
    assert (wsum f ws ≤ wsum g ws); [|lia].
    clear IH. induction ws as [|w1 ws IH]; [done|]. rewrite !wsum_cons.
    pose proof (Hle 1%nat w1 ltac:(done) eq_refl).
    assert (wsum f ws ≤ wsum g ws); [|lia].
    apply IH. intros [|j] wj Hne Hj; [done|]. apply (Hle (S (S j))); done.
  - pose proof (Hle 0%nat w0 ltac:(done) eq_refl).
    pose proof (IH i w Hi (λ j wj Hne Hj, Hle (S j) wj ltac:(congruence) Hj)).
    lia.
Qed.

Lemma size_index_symbol s b :
  (size b ≤ size (index_symbol s b) ≤ S (size b))%nat
  ∧ is_Some (index_symbol s b !! s).
Proof.
  unfold index_symbol, subscript. destruct (b !! s) eqn:Hs.
  - split; [lia|by rewrite Hs].
  - rewrite map_size_insert_None by done. split; [lia|].
    rewrite lookup_insert_eq. eauto.
Qed.

Lemma size_update_symbol s o b :
  is_Some (b !! s) → size (update_symbol s o b) = size b.
Proof. intros Hs. unfold update_symbol. by apply map_size_insert_Some. Qed.

Lemma size_remove s b : (size (remove s b) ≤ size b)%nat.
Proof.
  unfold remove. rewrite map_size_delete. destruct (b !! s); simpl; lia.
Qed.

Lemma length_display b : length (display b) = size b.
Proof. unfold display. by rewrite length_fmap, length_map_to_list. Qed.

(** A step that leaves the other workers no more steps than they had,
    and the worker that moves one step less, uses up fuel. *)
Lemma fuel_step st i w w' map1 mutex1 :
  workers st !! i = Some w →
  (∀ j wj, j ≠ i → workers st !! j = Some wj →
     steps_left (Z.of_nat (size map1))
       (wsum unindexed (workers st) - unindexed w + unindexed w') wj
     ≤ steps_left (Z.of_nat (size (map_ st))) (wsum unindexed (workers st)) wj) →
  steps_left (Z.of_nat (size map1))
    (wsum unindexed (workers st) - unindexed w + unindexed w') w'
  ≤ steps_left (Z.of_nat (size (map_ st))) (wsum unindexed (workers st)) w - 1 →
  fuel {| map_ := map1; mutex_ := mutex1; workers := <[i := w']> (workers st) |}
  ≤ fuel st - 1.
Proof.
  intros Hi Hothers Hmine. unfold fuel. cbn [map_ workers].
  rewrite (wsum_insert unindexed _ _ _ _ Hi).
  rewrite (wsum_insert (steps_left _ _) _ _ _ _ Hi).
  pose proof (wsum_others _ _ _ i w Hi Hothers). lia.
Qed.

Lemma step_fuel log i st st' :
  linear_invariant map0 log st → step_worker i st = Some st' →
  fuel st' ≤ fuel st - 1.
Proof.
  intros [Hcons Hex Hsh Heither _ Hidle Hhalf _] Hstep.
  unfold step_worker in Hstep.
  destruct (workers st !! i) as [w|] eqn:Hi; [|done].
  pose proof (wsum_nonneg unindexed (workers st) unindexed_nonneg) as Hu0.
  pose proof (wsum_lookup_le unindexed _ _ _ unindexed_nonneg Hi) as Hui.
  pose proof (wsum_lookup_le writing _ _ _ writing_nonneg Hi) as Hw.
  assert (exclusive (mutex_ st) = true →
          ∀ j wj, workers st !! j = Some wj → ∀ k, w_pc wj ≠ Printing k)
    as Hnoprint.
  { intros Hx j wj Hj k Hk.
    pose proof (Forall_lookup_1 _ _ _ _ Hcons Hj) as Hcj.
    pose proof (wsum_lookup_le reading _ _ _ reading_nonneg Hj) as Hrj.
    rewrite (Heither Hx) in Hsh.
    destruct Hcj as [?|[?|[Hcj|Hcj]]]; [congruence|congruence| |lia].
    unfold writing in Hcj. rewrite Hk in Hcj. by destruct (w_call wj). }
  assert (writing w = 1 → exclusive (mutex_ st) = true) as Hheld.
  { intros Hw1. destruct (exclusive (mutex_ st)); [done|simpl in Hex; lia]. }
  destruct w as [l c out]. cbn [w_pc w_call w_out] in Hstep.
  destruct l as [| | | |k| |], c as [s o|s|];
    cbn [writing unindexed w_pc w_call] in Hui, Hheld;
    try discriminate Hstep;
    repeat match type of Hstep with
           | context [if ?b then _ else _] => destruct b; [|try discriminate Hstep]
           end;
    try discriminate Hstep.
  - injection Hstep as <-. apply (fuel_step st i _ _ _ _ Hi).
    + intros j wj _ _. apply steps_left_mono; cbn; [lia|lia|left; lia].
    + unfold steps_left. cbn. lia.
  - injection Hstep as <-. apply (fuel_step st i _ _ _ _ Hi).
    + intros j wj _ _. apply steps_left_mono; cbn; [lia|lia|left; lia].
    + unfold steps_left. cbn. lia.
  - injection Hstep as <-. apply (fuel_step st i _ _ _ _ Hi).
    + intros j wj _ _. apply steps_left_mono; cbn; [lia|lia|left; lia].
    + unfold steps_left. cbn. lia.
  - injection Hstep as <-.
    destruct (size_index_symbol s (map_ st)) as [Hsize _].
    apply (fuel_step st i _ _ _ _ Hi).
    + intros j wj _ Hj. apply steps_left_mono; cbn; [lia|lia|right].
      by apply (Hnoprint (Hheld eq_refl) j).
    + unfold steps_left. cbn. lia.
  - injection Hstep as <-.
    assert (size (update_symbol s o (map_ st)) = size (map_ st)) as Hsize.
    { apply size_update_symbol. rewrite (Hhalf i _ s o Hi eq_refl eq_refl).
      apply size_index_symbol. }
    apply (fuel_step st i _ _ _ _ Hi).
    + intros j wj _ _. apply steps_left_mono; cbn; [lia|lia|left; lia].
    + unfold steps_left. cbn. lia.
  - injection Hstep as <-. pose proof (size_remove s (map_ st)) as Hsize.
    apply (fuel_step st i _ _ _ _ Hi).
    + intros j wj _ _. apply steps_left_mono; cbn; [lia|lia|left; lia].
    + unfold steps_left. cbn. lia.
  - destruct (display (map_ st) !! k) as [line|] eqn:Hk; injection Hstep as <-.
    + apply lookup_lt_Some in Hk. rewrite length_display in Hk.
      apply (fuel_step st i _ _ _ _ Hi).
      * intros j wj _ _. apply steps_left_mono; cbn; [lia|lia|left; lia].
      * unfold steps_left. cbn. lia.
    + apply (fuel_step st i _ _ _ _ Hi).
      * intros j wj _ _. apply steps_left_mono; cbn; [lia|lia|left; lia].
      * unfold steps_left. cbn. lia.
  - injection Hstep as <-. apply (fuel_step st i _ _ _ _ Hi).
    + intros j wj _ _. apply steps_left_mono; cbn; [lia|lia|left; lia].
    + unfold steps_left. cbn. lia.
  - injection Hstep as <-. apply (fuel_step st i _ _ _ _ Hi).
    + intros j wj _ _. apply steps_left_mono; cbn; [lia|lia|left; lia].
    + unfold steps_left. cbn. lia.
  - injection Hstep as <-. apply (fuel_step st i _ _ _ _ Hi).
    + intros j wj _ _. apply steps_left_mono; cbn; [lia|lia|left; lia].
    + unfold steps_left. cbn. lia.
Qed.

Lemma fuel_nonneg st : 0 ≤ fuel st.
Proof.
  unfold fuel. apply wsum_nonneg. intros w. apply steps_left_nonneg; [lia|].
  apply wsum_nonneg, unindexed_nonneg.
Qed.

Lemma run_fuel sched : ∀ log st st',
  linear_invariant map0 log st → run_workers sched st = Some st' →
  Z.of_nat (length sched) ≤ fuel st - fuel st'.
Proof.
  induction sched as [|i sched IH]; intros log st st' Hinv; simpl.
  - intros [= <-]. lia.
  - destruct (step_worker i st) as [st1|] eqn:Hstep; [|done]. intros Hrun.
    destruct (linear_step map0 log i st st1 Hinv Hstep) as (log1 & _ & Hinv1).
    pose proof (IH log1 st1 st' Hinv1 Hrun).
    pose proof (step_fuel log i st st1 Hinv Hstep). lia.
Qed.

Lemma wsum_bound (f : worker → Z) ws c :
  Forall (λ w, f w ≤ c) ws → wsum f ws ≤ Z.of_nat (length ws) * c.
Proof.
  induction 1 as [|w ws Hw _ IH]; [done|].
  rewrite wsum_cons. cbn [length]. lia.
Qed.

Lemma start_fuel calls :
  fuel (start calls map0)
  ≤ Z.of_nat (length calls)
    * (4 + Z.of_nat (size map0) + Z.of_nat (length calls)).
Proof.
  unfold fuel. cbn [start map_ workers].
  set (ws := (λ c, {| w_pc := Waiting; w_call := c; w_out := [] |}) <$> calls).
  assert (length ws = length calls) as Hlen by apply length_fmap.
  assert (Forall (λ w, w_pc w = Waiting) ws) as Hws
    by (by apply Forall_fmap, Forall_true).
  assert (0 ≤ wsum unindexed ws ≤ Z.of_nat (length calls)) as Hu.
  { split; [apply wsum_nonneg, unindexed_nonneg|].
    rewrite <- Hlen, <- (Z.mul_1_r (Z.of_nat (length ws))).
    apply wsum_bound, Forall_true. intros w. unfold unindexed.
    destruct (w_pc w), (w_call w); lia. }
  rewrite <- Hlen at 1. apply wsum_bound.
  eapply Forall_impl; [exact Hws|]. intros w Hpc. unfold steps_left.
  rewrite Hpc. destruct (w_call w); lia.
Qed.

Lemma run_workers_app sched1 sched2 : ∀ st,
  run_workers (sched1 ++ sched2) st = run_workers sched1 st ≫= run_workers sched2.
Proof.
  induction sched1 as [|i sched1 IH]; intros st; [done|]. simpl.
  destruct (step_worker i st); [apply IH|done].
Qed.

Lemma workers_completion (k : nat) : ∀ log st,
  linear_invariant map0 log st → fuel st ≤ Z.of_nat k →
  ∃ sched st', run_workers sched st = Some st' ∧ all_returned st' = true.
Proof.
  induction k as [|k IH]; intros log st Hinv Hk;
    (destruct (all_returned st) eqn:Hall; [by exists [], st|]);
    destruct (worker_progress map0 log st Hinv Hall) as (i & st1 & Hstep);
    pose proof (step_fuel log i st st1 Hinv Hstep) as Hdec;
    pose proof (fuel_nonneg st1).
  - lia.
  - destruct (linear_step map0 log i st st1 Hinv Hstep) as (log1 & _ & Hinv1).
    destruct (IH log1 st1 Hinv1) as (sched & st' & Hrun & Hdone); [lia|].
    exists (i :: sched), st'. simpl. by rewrite Hstep.
Qed.

(** X20.  Workers always return.  Every interleaving of workers calling
    [insert], [remove] and [display] that has been run so far can be
    continued until all workers have returned, and no interleaving of [n]
    workers on a book of [m] symbols has more than [n * (4 + m + n)]
    steps. *)
Theorem workers_always_return calls sched st :
  run_workers sched (start calls map0) = Some st →
  (∃ sched' st',
      run_workers (sched ++ sched') (start calls map0) = Some st'
      ∧ all_returned st' = true)
  ∧ Z.of_nat (length sched)
    ≤ Z.of_nat (length calls)
      * (4 + Z.of_nat (size map0) + Z.of_nat (length calls)).
Proof.
  intros Hrun.
  destruct (linear_run map0 _ _ _ _ (start_invariant map0 calls) Hrun)
    as (log & _ & Hinv).
  pose proof (run_fuel _ _ _ _ (start_invariant map0 calls) Hrun) as Hlen.
  pose proof (start_fuel calls) as Hstart.
  pose proof (fuel_nonneg st) as Hge.
  split; [|lia].
  destruct (workers_completion (Z.to_nat (fuel st)) log st Hinv)
    as (sched' & st' & Hrun' & Hall); [lia|].
  exists sched', st'. by rewrite run_workers_app, Hrun.
Qed.

End worker_termination.

(** ** Instances for the workers *)

Section worker_instances.

(** Two workers inside [display] at the same time. *)
Lemma readers_writers_exclusion_witness :
  ∃ st,
    run_workers [0; 1]%nat (start [CallDisplay; CallDisplay] ∅) = Some st
    ∧ shared (mutex_ st) = 2%nat
    ∧ wsum reading (workers st) = Z.of_nat (shared (mutex_ st)).
Proof.
  eexists. split; [vm_compute; reflexivity|]. split; [reflexivity|].
  refine (proj2 (proj2 (readers_writers_exclusion ∅ [CallDisplay; CallDisplay]
                          [0; 1]%nat _ _))).
  vm_compute. reflexivity.
Defined.

(** An [insert], a [display] that prints its line, and a [remove], one
    after the other. *)
Lemma workers_linearizable_witness :
  ∃ st,
    run_workers [0; 0; 0; 0; 1; 1; 1; 1; 2; 2; 2]%nat
      (start [CallInsert "A" (mkOrder 1 2); CallDisplay; CallRemove "A"] ∅)
    = Some st
    ∧ all_returned st = true
    ∧ ∃ log,
        log ≡ₚ done_writes (workers st)
        ∧ (exclusive (mutex_ st) = false → map_ st = run log ∅)
        ∧ (∀ i w, workers st !! i = Some w → w_call w = CallDisplay →
                  w_pc w = Returned →
                  ∃ pre, pre `prefix_of` log ∧ w_out w = display (run pre ∅))
        ∧ (all_returned st = true →
           log ≡ₚ omap op_of [CallInsert "A" (mkOrder 1 2); CallDisplay;
                              CallRemove "A"]).
Proof.
  eexists. split; [vm_compute; reflexivity|]. split; [reflexivity|].
  refine (workers_linearizable ∅
            [CallInsert "A" (mkOrder 1 2); CallDisplay; CallRemove "A"]
            [0; 0; 0; 0; 1; 1; 1; 1; 2; 2; 2]%nat _ _).
  vm_compute. reflexivity.
Defined.

(** A [display] that has printed the line of the one symbol. *)
Lemma display_prints_no_empty_line_witness :
  ∃ st w,
    no_placeholder ∅
    ∧ run_workers [0; 0; 0; 0; 1; 1]%nat
        (start [CallInsert "A" (mkOrder 1 2); CallDisplay] ∅) = Some st
    ∧ workers st !! 1%nat = Some w
    ∧ w_call w = CallDisplay
    ∧ ("A", [(1, 2)]) ∈ w_out w
    ∧ [(1, 2)] ≠ ([] : list (Z * Z)).
Proof.
  eexists. eexists.
  assert (no_placeholder ∅) as H1 by apply no_placeholder_empty.
  split; [assumption|].
  split; [vm_compute; reflexivity|]. split; [vm_compute; reflexivity|].
  split; [reflexivity|].
  match goal with
  | |- ?G ∧ _ => assert G as H5 by (cbn [w_out]; constructor)
  end.
  split; [exact H5|].
  refine (display_prints_no_empty_line ∅
            [CallInsert "A" (mkOrder 1 2); CallDisplay]
            [0; 0; 0; 0; 1; 1]%nat _ 1%nat _ "A" [(1, 2)] H1 _ _ _ H5).
  - vm_compute. reflexivity.
  - vm_compute. reflexivity.
  - reflexivity.
Defined.

(** A [remove] that holds the lock while a [display] waits. *)
Lemma workers_always_return_witness :
  ∃ st,
    run_workers [0; 0]%nat (start [CallRemove "A"; CallDisplay] ∅) = Some st
    ∧ ∃ sched' st',
        run_workers ([0; 0]%nat ++ sched') (start [CallRemove "A"; CallDisplay] ∅)
        = Some st'
        ∧ all_returned st' = true.
Proof.
  eexists. split; [vm_compute; reflexivity|].
  refine (proj1 (workers_always_return ∅ [CallRemove "A"; CallDisplay]
                   [0; 0]%nat _ _)).
  vm_compute. reflexivity.
Defined.

End worker_instances.

(** ** Calls take effect as a whole *)

Section whole_effect.

Implicit Types (b : book) (o c : Order) (s : string).

(** C5.  [remove] of a symbol the book does not hold returns the book as
    it was: every symbol keeps its inner map and [display] prints the
    same lines.  No call stops half-way.  [insert] leaves exactly the old
    book with the one cell of its pair set, to the order itself (quantity
    and price) when the pair was absent and to the old cell with the
    quantities added when it was present; [remove] leaves exactly the old
    book without its symbol.  And when threads make the calls, every
    thread can be brought to return, whatever steps were taken before,
    and whenever the mutex is not held exclusively the book is what the
    calls that have taken effect leave when made one after the other, so
    that no part of a call is ever in the book without the rest. *)
Theorem remove_absent_noop b s :
  (b !! s = None →
     remove s b = b
     ∧ display (remove s b) = display b
     ∧ (∀ s', remove s b !! s' = b !! s'))
  ∧ (∀ o,
       insert s o b
       = <[s := <[price o :=
                    match cell b s (price o) with
                    | Some c => {| lotSize := wrap_int (lotSize c + lotSize o);
                                   price := price c |}
                    | None => {| lotSize := lotSize o; price := price o |}
                    end]> (default ∅ (b !! s))]> b)
  ∧ (∀ s', remove s b !! s' = if decide (s' = s) then None else b !! s')
  ∧ (∀ calls sched st,
       run_workers sched (start calls b) = Some st →
       (∃ log,
           log ≡ₚ done_writes (workers st)
           ∧ (exclusive (mutex_ st) = false → map_ st = run log b))
       ∧ (∃ sched' st',
             run_workers (sched ++ sched') (start calls b) = Some st'
             ∧ all_returned st' = true)).
Proof.
  split; [|split; [|split]].
  - intros Habsent. unfold remove. by rewrite delete_id.
  - intros o. rewrite insert_eq, merge_order_eq. do 2 f_equal.
    unfold cell. destruct (b !! s) as [orders|]; simpl.
    + destruct (orders !! price o) as [c|]; simpl; [done|]. by destruct o.
    + by destruct o.
  - intros s'. unfold remove. case_decide as Hs.
    + subst s'. apply lookup_delete_eq.
    + by apply lookup_delete_ne.
  - intros calls sched st Hrun.
    destruct (linear_run b _ _ _ _ (start_invariant b calls) Hrun)
      as (log & _ & Hinv).
    split.
    + exists log. destruct Hinv as [_ Hex _ _ Hlog Hidle _ _].
      split; [done|]. intros Hx. apply Hidle.
      rewrite Hx in Hex. simpl in Hex.
      pose proof (halfway_sum_le (workers st)).
      pose proof (wsum_nonneg halfway (workers st) halfway_nonneg). lia.
    + destruct (workers_completion b (Z.to_nat (fuel st)) log st Hinv)
        as (sched' & st' & Hrun' & Hall); [pose proof (fuel_nonneg st); lia|].
      exists sched', st'. by rewrite run_workers_app, Hrun.
Qed.

(** A [remove] of a symbol that was never inserted; and an [insert] that
    has run [map_[symbol]] but not yet created its cell, on the same
    book. *)
Lemma remove_absent_noop_witness :
  let b := insert "TEST" (mkOrder 10 2) ∅ in
  ∃ st,
    b !! "OTHER" = None
    ∧ run_workers [0; 0]%nat (start [CallInsert "OTHER" (mkOrder 1 1)] b) = Some st
    ∧ remove "OTHER" b = b
    ∧ ∃ sched' st',
        run_workers ([0; 0]%nat ++ sched') (start [CallInsert "OTHER" (mkOrder 1 1)] b)
        = Some st'
        ∧ all_returned st' = true.
Proof.
  intros b. eexists.
  assert (b !! "OTHER" = None) as H1 by reflexivity.
  split; [assumption|].
  split; [vm_compute; reflexivity|].
  destruct (remove_absent_noop b "OTHER") as (Ha & _ & _ & Hc).
  split; [exact (proj1 (Ha H1))|].
  refine (proj2 (Hc [CallInsert "OTHER" (mkOrder 1 1)] [0; 0]%nat _ _)).
  vm_compute. reflexivity.
Defined.

End whole_effect.
